(** * gazebo_continuous_track: loading of the continuous-track properties

    A shallow embedding of
    [include/gazebo_continuous_track/gazebo_continuous_track_properties.hpp]
    (class [gazebo::ContinuousTrackProperties]) and the properties of its
    constructor and of the three loaders [LoadSprocket], [LoadTrajectory]
    and [LoadPattern].

    The header works on two kinds of shared objects: the joints of a
    physics model ([physics::JointPtr]) and SDF elements
    ([sdf::ElementPtr]).  Both are modelled as nullable pointers into an
    explicit world; the loaders run in a state-and-failure monad over that
    world.  Numbers are kept as the code has them: [double] is a binary64
    float, [std::size_t] a natural number, joint types an [unsigned int]
    bit mask tested with [&]. *)

From Stdlib Require Import Floats ZArith NArith String.
From stdpp Require Import base list strings.

Local Open Scope string_scope.
Local Open Scope list_scope.

Set Warnings "-register-all,-inexact-float".

(** ** SDF elements *)

(** The value of an element ([sdf::Param]): a typed scalar. *)
Inductive Value : Type :=
| VEmpty
| VString (s : string)
| VDouble (d : float)
| VUInt (n : N).

(** An SDF element: its tag, its value and its child elements in document
    order.  A parent owns its children, so a tree is a value. *)
Inductive Element : Type :=
  Elem { GetName : string; GetValue : Value; children : list Element }.

(** A position below a root, as child indices, innermost first. *)
Abbreviation Path := (list nat).

(** [sdf::ElementPtr]: null, or a root of the heap and a position in it. *)
Abbreviation ElementPtr := (option (nat * list nat)).

(** The element at a position (outermost index first) below [e]. *)
Fixpoint subtree (e : Element) (p : list nat) : option Element :=
  match p with
  | [] => Some e
  | i :: p' =>
      match children e !! i with
      | Some c => subtree c p'
      | None => None
      end
  end.

(** Replace the subtree at a position (outermost index first) by its image
    under [f]; nothing changes when the position does not exist. *)
Fixpoint update_subtree (f : Element -> Element) (e : Element) (p : list nat)
  : Element :=
  match p with
  | [] => f e
  | i :: p' =>
      match children e !! i with
      | Some c =>
          Elem (GetName e) (GetValue e)
               (<[i := update_subtree f c p']> (children e))
      | None => e
      end
  end.

(** First index at or after [k] of a child called [tag]. *)
Fixpoint find_child (tag : string) (l : list Element) (k : nat) : option nat :=
  match l with
  | [] => None
  | c :: l' =>
      if String.eqb (GetName c) tag then Some k else find_child tag l' (S k)
  end.

(** ** The physics model *)

(** A joint: its name and the bit mask returned by [GetType()]. *)
Record Joint : Type := { joint_name : string; joint_type : Z }.

(** A model, as far as the loaders look at it: its joints. *)
Abbreviation Model := (list Joint).

(** [physics::ModelPtr]: null, or an index into the models of the world. *)
Abbreviation ModelPtr := (option nat).

(** [physics::JointPtr]: null, or a model and an index into its joints. *)
Abbreviation JointPtr := (option (nat * nat)).

Fixpoint find_joint (name : string) (l : list Joint) (k : nat) : option nat :=
  match l with
  | [] => None
  | j :: l' =>
      if String.eqb (joint_name j) name then Some k else find_joint name l' (S k)
  end.

(** ** What the header takes from Gazebo, SDFormat and ROS

    The two joint-type bits of [physics::Base::EntityType], the
    [SDF_VERSION] macro and the functions that parse or print SDF are
    declared outside this repository; the embedding takes them as a
    parameter.  [initFile] and [readString] return their [bool] verdict
    and the content they leave in the element they were given. *)
Record Externals : Type := {
  HINGE_JOINT : Z;
  SLIDER_JOINT : Z;
  SDF_VERSION : string;
  getPath : string -> string;
  ToString : Element -> string -> string;
  initFile : string -> Element -> bool * Element;
  readString : string -> Element -> bool * Element
}.

(** ** The world and the monad *)

(** The models with their joints, the SDF elements alive (one tree per
    root) and the function-local [static] of [AssertPluginSDF]. *)
Record World : Type := {
  models : list Model;
  heap : list Element;
  fmt_seed_static : option ElementPtr
}.

Definition set_heap (h : list Element) (w : World) : World :=
  {| models := models w; heap := h; fmt_seed_static := fmt_seed_static w |}.

Definition set_fmt_seed (p : ElementPtr) (w : World) : World :=
  {| models := models w; heap := heap w; fmt_seed_static := Some p |}.

(** Why a run stops.  [AssertionFailed] carries the message of the
    [GZ_ASSERT] that fired; [NullDereference] is the use of a null pointer,
    [BadValue] a [Get<T>()] on a value of another type, [LoopBudget] the
    end of a loop budget.  [SchemaViolation] is the failure of the
    validator of the specification ([Spec.Validate]); nothing in the header
    raises it. *)
Inductive Failure : Type :=
| AssertionFailed (msg : string)
| NullDereference
| BadValue
| LoopBudget
| SchemaViolation.

Inductive Outcome (A : Type) : Type :=
| Done (a : A)
| Abort (f : Failure).
Arguments Done {A} a.
Arguments Abort {A} f.

Definition M (A : Type) : Type := World -> Outcome (A * World).

Definition ret {A} (a : A) : M A := fun w => Done (a, w).

Definition bind {A B} (m : M A) (k : A -> M B) : M B :=
  fun w =>
    match m w with
    | Done (a, w') => k a w'
    | Abort f => Abort f
    end.

Definition fail {A} (f : Failure) : M A := fun _ => Abort f.

Definition get_world : M World := fun w => Done (w, w).

Definition put_world (w : World) : M unit := fun _ => Done (tt, w).

Declare Scope m_scope.
Delimit Scope m_scope with M.
Notation "'let*' x := c 'in' k" := (bind c (fun x => k))
  (at level 10, x name, c at level 100, k at level 200) : m_scope.
Notation "c ;;; k" := (bind c (fun _ => k))
  (at level 100, k at level 200, right associativity) : m_scope.
Local Open Scope m_scope.

(** Modelled from the spec: the [GZ_ASSERT] macro of Gazebo is not under
    [src/]; as in the spec a failed assertion stops the construction with
    its message (assertions are compiled in). *)
Definition GZ_ASSERT (cond : bool) (msg : string) : M unit :=
  if cond then ret tt else fail (AssertionFailed msg).

(** The element a pointer designates. *)
Definition element_at (h : list Element) (p : ElementPtr) : option Element :=
  match p with
  | None => None
  | Some (r, rp) =>
      match h !! r with
      | Some t => subtree t (rev rp)
      | None => None
      end
  end.

(** [p->...]: dereferencing; a null pointer stops the run. *)
Definition deref (p : ElementPtr) : M Element :=
  fun w =>
    match element_at (heap w) p with
    | Some e => Done (e, w)
    | None => Abort NullDereference
    end.

Definition child (p : ElementPtr) (i : nat) : ElementPtr :=
  match p with
  | None => None
  | Some (r, rp) => Some (r, i :: rp)
  end.

(** ** The SDFormat operations the loaders call *)

(** [p->HasElement(tag)]. *)
Definition HasElement (p : ElementPtr) (tag : string) : M bool :=
  let* e := deref p in
  ret (match find_child tag (children e) 0 with Some _ => true | None => false end).

(** [p->GetElement(tag)]: the first child called [tag].  The elements a
    plugin receives carry no element descriptions, so nothing can be added
    for a missing child and the result is then null. *)
Definition GetElement (p : ElementPtr) (tag : string) : M ElementPtr :=
  let* e := deref p in
  ret (match find_child tag (children e) 0 with
       | Some i => child p i
       | None => None
       end).

(** [p->GetNextElement(tag)]: the next sibling called [tag], searched in
    the children of the parent after the position of [p]; null when [p] has
    no parent or no such sibling. *)
Definition GetNextElement (p : ElementPtr) (tag : string) : M ElementPtr :=
  let* _ := deref p in
  match p with
  | Some (r, i :: up) =>
      let* parent := deref (Some (r, up)) in
      ret (match find_child tag (drop (S i) (children parent)) (S i) with
           | Some j => Some (r, j :: up)
           | None => None
           end)
  | _ => ret None
  end.

(** [p->Get<std::string>()], [p->Get<double>()], [p->Get<std::size_t>()]. *)
Definition Get_string (p : ElementPtr) : M string :=
  let* e := deref p in
  match GetValue e with VString s => ret s | _ => fail BadValue end.

Definition Get_double (p : ElementPtr) : M float :=
  let* e := deref p in
  match GetValue e with VDouble d => ret d | _ => fail BadValue end.

Definition Get_size_t (p : ElementPtr) : M N :=
  let* e := deref p in
  match GetValue e with VUInt n => ret n | _ => fail BadValue end.

(** Allocation of a new tree: its root is the next free index. *)
Definition alloc (t : Element) : M ElementPtr :=
  fun w => Done (Some (length (heap w), []), set_heap (heap w ++ [t]) w).

(** [p->Clone()]: a deep copy, owned by nobody else and without parent. *)
Definition Clone (p : ElementPtr) : M ElementPtr :=
  let* e := deref p in
  alloc e.

(** In-place change of the element behind a pointer (any of the setters of
    [sdf::Element]); not called by the loaders, used to state what a
    later mutation can and cannot reach. *)
Definition mutate (f : Element -> Element) (p : ElementPtr) (h : list Element)
  : list Element :=
  match p with
  | None => h
  | Some (r, rp) =>
      match h !! r with
      | Some t => <[r := update_subtree f t (rev rp)]> h
      | None => h
      end
  end.

(** ** The Gazebo operations the loaders call *)

(** [_model->GetJoint(name)]: the first joint with that name, or null. *)
Definition GetJoint (_model : ModelPtr) (name : string) : M JointPtr :=
  fun w =>
    match _model with
    | None => Abort NullDereference
    | Some m =>
        match models w !! m with
        | Some js =>
            Done (match find_joint name js 0 with
                  | Some i => Some (m, i)
                  | None => None
                  end, w)
        | None => Abort NullDereference
        end
    end.

(** [joint->GetType()]. *)
Definition GetType (j : JointPtr) : M Z :=
  fun w =>
    match j with
    | None => Abort NullDereference
    | Some (m, i) =>
        match models w !! m with
        | Some js =>
            match js !! i with
            | Some jt => Done (joint_type jt, w)
            | None => Abort NullDereference
            end
        | None => Abort NullDereference
        end
    end.

(** A non-zero [unsigned int] used as a condition. *)
Definition truthy (z : Z) : bool := negb (Z.eqb z 0).

(** A non-null pointer used as a condition. *)
Definition non_null {A} (p : option A) : bool :=
  match p with Some _ => true | None => false end.

(** ** The public properties *)

Record Sprocket : Type := {
  sprocket_joint : JointPtr;
  pitch_diameter : float
}.

Record Segment : Type := {
  segment_joint : JointPtr;
  end_position : float
}.

Record Trajectory : Type := { segments : list Segment }.

Record PatternElement : Type := {
  collision_sdfs : list ElementPtr;
  visual_sdfs : list ElementPtr
}.

Record Pattern : Type := {
  elements_per_round : N;
  elements : list PatternElement
}.

Record Properties : Type := {
  sprocket : Sprocket;
  trajectory : Trajectory;
  pattern : Pattern
}.

(** ** The loaders *)

(** The messages of the assertions, as in the header. *)
Definition msg_sprocket_joint : string :=
  "Cannot find a joint with the value of [sprocket]::[joint] element in sdf".
Definition msg_sprocket_kind : string :=
  "[sprocket]::[joint] must be a rotatinal joint".
Definition msg_segment_joint : string :=
  "Cannot find a joint with the value of [trajectory]::[segment]::[joint] element in sdf".
Definition msg_segment_kind : string :=
  "[trajectory]::[segment]::[joint] must be a rotatinal or translational joint".
Definition msg_end_position : string :=
  "[trajectory]::[segment]::[end_position] must be positive real number".
Definition msg_elements_per_round : string :=
  "[pattern]::[elements_per_round] must be positive intger".

(** [for (sdf::ElementPtr e = first; e; e = e->GetNextElement(tag)) body]:
    the loop runs while the pointer is not null.  [budget] bounds the
    number of rounds; the loaders pass the number of children of the
    element they iterate over, which is never exceeded
    (see [loops_within_budget]). *)
Fixpoint for_elements {A} (budget : nat) (tag : string)
  (body : ElementPtr -> A -> M A) (e : ElementPtr) (acc : A) : M A :=
  match e with
  | None => ret acc
  | Some _ =>
      match budget with
      | O => fail LoopBudget
      | S budget' =>
          let* acc' := body e acc in
          let* next := GetNextElement e tag in
          for_elements budget' tag body next acc'
      end
  end.

(** The number of children of an element, the budget of a loop over them. *)
Definition child_count (p : ElementPtr) : M nat :=
  let* e := deref p in ret (length (children e)).

Section Loaders.

Context (ext : Externals).

Definition LoadSprocket (_model : ModelPtr) (_sdf : ElementPtr) : M Sprocket :=
  (* [joint] *)
  let* joint_elem := GetElement _sdf "joint" in
  let* joint_str := Get_string joint_elem in
  let* joint := GetJoint _model joint_str in
  GZ_ASSERT (non_null joint) msg_sprocket_joint ;;;
  let* ty := GetType joint in
  GZ_ASSERT (truthy (Z.land ty (HINGE_JOINT ext))) msg_sprocket_kind ;;;
  (* [pitch_diameter] *)
  let* pd_elem := GetElement _sdf "pitch_diameter" in
  let* pd := Get_double pd_elem in
  ret {| sprocket_joint := joint; pitch_diameter := pd |}.

(** One round of the loop of [LoadTrajectory]. *)
Definition segment_round (_model : ModelPtr) (segment_elem : ElementPtr)
  (trajectory : Trajectory) : M Trajectory :=
  (* []::[joint] *)
  let* joint_elem := GetElement segment_elem "joint" in
  let* joint_str := Get_string joint_elem in
  let* joint := GetJoint _model joint_str in
  GZ_ASSERT (non_null joint) msg_segment_joint ;;;
  let* ty := GetType joint in
  GZ_ASSERT (truthy (Z.land ty (HINGE_JOINT ext))
             || truthy (Z.land ty (SLIDER_JOINT ext))) msg_segment_kind ;;;
  (* []::[end_position] *)
  let* ep_elem := GetElement segment_elem "end_position" in
  let* ep := Get_double ep_elem in
  GZ_ASSERT (PrimFloat.ltb 0 ep) msg_end_position ;;;
  ret {| segments := segments trajectory
                     ++ [{| segment_joint := joint; end_position := ep |}] |}.

Definition LoadTrajectory (_model : ModelPtr) (_sdf : ElementPtr) : M Trajectory :=
  let* budget := child_count _sdf in
  (* [segment], one or more *)
  let* first := GetElement _sdf "segment" in
  for_elements budget "segment" (segment_round _model) first {| segments := [] |}.

(** [v.push_back(e->Clone())] for every child called [tag], as the two
    inner loops of [LoadPattern] do. *)
Definition clone_round (e : ElementPtr) (v : list ElementPtr)
  : M (list ElementPtr) :=
  let* c := Clone e in ret (v ++ [c]).

Definition clone_children (element_elem : ElementPtr) (tag : string)
  : M (list ElementPtr) :=
  let* has := HasElement element_elem tag in
  if has then
    let* budget := child_count element_elem in
    let* first := GetElement element_elem tag in
    for_elements budget tag clone_round first []
  else ret [].

(** One round of the outer loop of [LoadPattern]. *)
Definition element_round (element_elem : ElementPtr) (pattern : Pattern)
  : M Pattern :=
  (* []::[collision], zero or more *)
  let* collisions := clone_children element_elem "collision" in
  (* []::[visual], zero or more *)
  let* visuals := clone_children element_elem "visual" in
  ret {| elements_per_round := elements_per_round pattern;
         elements :=
           elements pattern
           ++ [{| collision_sdfs := collisions; visual_sdfs := visuals |}] |}.

Definition LoadPattern (_model : ModelPtr) (_sdf : ElementPtr) : M Pattern :=
  (* [elements_per_round] *)
  let* epr_elem := GetElement _sdf "elements_per_round" in
  let* epr := Get_size_t epr_elem in
  GZ_ASSERT (N.ltb 0 epr) msg_elements_per_round ;;;
  (* [element], one or more *)
  let* budget := child_count _sdf in
  let* first := GetElement _sdf "element" in
  for_elements budget "element" element_round first
    {| elements_per_round := epr; elements := [] |}.

(** [new sdf::Element()]. *)
Definition new_Element : M ElementPtr := alloc (Elem EmptyString VEmpty []).

(** A call [f(arg, p)] of [sdf::initFile] or [sdf::readString]: the
    element behind [p] is replaced by what the call leaves in it. *)
Definition fill (f : string -> Element -> bool * Element) (arg : string)
  (p : ElementPtr) : M bool :=
  let* e := deref p in
  let '(ok, e') := f arg e in
  fun w => Done (ok, set_heap (mutate (fun _ => e') p (heap w)) w).

Definition InitializedPluginSDF : M ElementPtr :=
  let* sdf := new_Element in
  let* _ := fill (initFile ext)
              (getPath ext "gazebo_continuous_track"
               ++ "/sdf/continuous_track_plugin.sdf")%string sdf in
  ret sdf.

(** The function-local [static const sdf::ElementPtr fmt_seed]:
    initialised by the first call. *)
Definition fmt_seed : M ElementPtr :=
  let* w := get_world in
  match fmt_seed_static w with
  | Some p => ret p
  | None =>
      let* p := InitializedPluginSDF in
      let* w' := get_world in
      put_world (set_fmt_seed p w') ;;;
      ret p
  end.

(** The value of [sdf::readString] is not used and nothing is returned. *)
Definition AssertPluginSDF (_sdf : ElementPtr) : M unit :=
  let* seed := fmt_seed in
  let* fmt := Clone seed in
  let* e := deref _sdf in
  let* _ := fill (readString ext)
              ("<sdf version='" ++ SDF_VERSION ext ++ "'>"
               ++ ToString ext e EmptyString ++ "</sdf>")%string fmt in
  ret tt.

(** The constructor [ContinuousTrackProperties(_model, _sdf)]. *)
Definition ContinuousTrackProperties (_model : ModelPtr) (_sdf : ElementPtr)
  : M Properties :=
  (* assert the given sdf can be parsed as plugin property config *)
  AssertPluginSDF _sdf ;;;
  let* sprocket_elem := GetElement _sdf "sprocket" in
  let* sprocket := LoadSprocket _model sprocket_elem in
  let* trajectory_elem := GetElement _sdf "trajectory" in
  let* trajectory := LoadTrajectory _model trajectory_elem in
  let* pattern_elem := GetElement _sdf "pattern" in
  let* pattern := LoadPattern _model pattern_elem in
  ret {| sprocket := sprocket; trajectory := trajectory; pattern := pattern |}.

End Loaders.

(** ** Vocabulary of the statements *)

(** The children called [tag], each with its index, in document order. *)
Fixpoint named (tag : string) (l : list Element) (k : nat)
  : list (nat * Element) :=
  match l with
  | [] => []
  | c :: l' =>
      if String.eqb (GetName c) tag
      then (k, c) :: named tag l' (S k)
      else named tag l' (S k)
  end.

(** The pointers to the children of [p] called [tag], in document order. *)
Definition children_ptrs (tag : string) (p : ElementPtr) (e : Element)
  : list ElementPtr :=
  (fun ic => child p ic.1) <$> named tag (children e) 0.

(** The loop body run once per pointer, from left to right. *)
Fixpoint rounds {A} (body : ElementPtr -> A -> M A) (ps : list ElementPtr)
  (acc : A) : M A :=
  match ps with
  | [] => ret acc
  | p :: ps' => let* acc' := body p acc in rounds body ps' acc'
  end.

(** The value of the first child called [tag]. *)
Definition child_value (tag : string) (e : Element) : option Value :=
  match find_child tag (children e) 0 with
  | Some i => GetValue <$> children e !! i
  | None => None
  end.

(** The result of a run without the world it ends in. *)
Definition value_of {A} (o : Outcome (A * World)) : Outcome A :=
  match o with
  | Done (a, _) => Done a
  | Abort f => Abort f
  end.

(** A result that leaves the world as it is. *)
Definition lift {A} (w : World) (o : Outcome A) : Outcome (A * World) :=
  match o with
  | Done a => Done (a, w)
  | Abort f => Abort f
  end.

(** What [LoadSprocket] makes of the element [e] and the joints [js] of
    model [m], as a function of these values alone (see [LoadSprocket_run]). *)
Definition sprocket_of (ext : Externals) (js : Model) (m : nat) (e : Element)
  : Outcome Sprocket :=
  match child_value "joint" e with
  | Some (VString name) =>
      match find_joint name js 0 with
      | Some i =>
          match js !! i with
          | Some j =>
              if truthy (Z.land (joint_type j) (HINGE_JOINT ext)) then
                match child_value "pitch_diameter" e with
                | Some (VDouble d) =>
                    Done {| sprocket_joint := Some (m, i); pitch_diameter := d |}
                | Some _ => Abort BadValue
                | None => Abort NullDereference
                end
              else Abort (AssertionFailed msg_sprocket_kind)
          | None => Abort NullDereference
          end
      | None => Abort (AssertionFailed msg_sprocket_joint)
      end
  | Some _ => Abort BadValue
  | None => Abort NullDereference
  end.

(** What one round of [LoadTrajectory] makes of a segment element
    (see [segment_round_run]). *)
Definition segment_of (ext : Externals) (js : Model) (m : nat) (c : Element)
  : Outcome Segment :=
  match child_value "joint" c with
  | Some (VString name) =>
      match find_joint name js 0 with
      | Some i =>
          match js !! i with
          | Some j =>
              if truthy (Z.land (joint_type j) (HINGE_JOINT ext))
                 || truthy (Z.land (joint_type j) (SLIDER_JOINT ext)) then
                match child_value "end_position" c with
                | Some (VDouble d) =>
                    if PrimFloat.ltb 0 d
                    then Done {| segment_joint := Some (m, i); end_position := d |}
                    else Abort (AssertionFailed msg_end_position)
                | Some _ => Abort BadValue
                | None => Abort NullDereference
                end
              else Abort (AssertionFailed msg_segment_kind)
          | None => Abort NullDereference
          end
      | None => Abort (AssertionFailed msg_segment_joint)
      end
  | Some _ => Abort BadValue
  | None => Abort NullDereference
  end.

(** [f] on every element from left to right; the first failure is the
    result. *)
Fixpoint collect {A B} (f : A -> Outcome B) (l : list A) : Outcome (list B) :=
  match l with
  | [] => Done []
  | a :: l' =>
      match f a with
      | Done b =>
          match collect f l' with
          | Done bs => Done (b :: bs)
          | Abort e => Abort e
          end
      | Abort e => Abort e
      end
  end.

(** A run that returns leaves the world as it found it. *)
Definition read_only {A} (c : M A) : Prop :=
  forall w a w', c w = Done (a, w') -> w' = w.

(** The models and the [static] are the same and the heap has only grown
    at its end: every tree that was there is still there, unchanged. *)
Definition grows (w w' : World) : Prop :=
  models w' = models w
  /\ fmt_seed_static w' = fmt_seed_static w
  /\ exists t, heap w' = heap w ++ t.

(** A run that returns has at most allocated new trees. *)
Definition allocates_only {A} (c : M A) : Prop :=
  forall w a w', c w = Done (a, w') -> grows w w'.

(** The children of [e] called [tag], in document order. *)
Definition children_named (tag : string) (e : Element) : list Element :=
  filter (fun c => GetName c = tag) (children e).

(** [n] pointers to the roots [base], [base + 1], ... *)
Fixpoint fresh_ptrs (base n : nat) : list ElementPtr :=
  match n with
  | O => []
  | S n' => Some (base, []) :: fresh_ptrs (S base) n'
  end.

(** The trees [LoadPattern] clones for the pattern elements [es], in the
    order in which it clones them: for each element its collisions, then
    its visuals. *)
Definition clones_of (es : list Element) : list Element :=
  concat ((fun e => children_named "collision" e ++ children_named "visual" e)
            <$> es).

(** The pattern elements [LoadPattern] builds for [es] when the heap has
    [base] roots: each clone gets the next free root. *)
Fixpoint layout (base : nat) (es : list Element) : list PatternElement :=
  match es with
  | [] => []
  | e :: es' =>
      let nc := length (children_named "collision" e) in
      let nv := length (children_named "visual" e) in
      {| collision_sdfs := fresh_ptrs base nc;
         visual_sdfs := fresh_ptrs (base + nc) nv |}
        :: layout (base + nc + nv) es'
  end.

(** What [LoadPattern] returns for the pattern element [t] when the heap
    has [base] roots (see [LoadPattern_run]). *)
Definition pattern_of (base : nat) (t : Element) : Outcome Pattern :=
  match child_value "elements_per_round" t with
  | Some (VUInt n) =>
      if N.ltb 0 n
      then Done {| elements_per_round := n;
                   elements := layout base (children_named "element" t) |}
      else Abort (AssertionFailed msg_elements_per_round)
  | Some _ => Abort BadValue
  | None => Abort NullDereference
  end.

(** The three loaders on the children of [tree], in the order of the
    constructor: what the constructor does after [AssertPluginSDF]
    (see [ContinuousTrackProperties_unfold]). *)
Definition run_loaders (ext : Externals) (_model : ModelPtr) (tree : ElementPtr)
  : M Properties :=
  let* sprocket_elem := GetElement tree "sprocket" in
  let* sprocket := LoadSprocket ext _model sprocket_elem in
  let* trajectory_elem := GetElement tree "trajectory" in
  let* trajectory := LoadTrajectory ext _model trajectory_elem in
  let* pattern_elem := GetElement tree "pattern" in
  let* pattern := LoadPattern _model pattern_elem in
  ret {| sprocket := sprocket; trajectory := trajectory; pattern := pattern |}.

(** The first child called [tag]. *)
Definition first_child (tag : string) (e : Element) : option Element :=
  match find_child tag (children e) 0 with
  | Some i => children e !! i
  | None => None
  end.

(** What [LoadTrajectory] returns for the trajectory element [t]
    (see [LoadTrajectory_run]). *)
Definition trajectory_of (ext : Externals) (js : Model) (m : nat) (t : Element)
  : Outcome Trajectory :=
  match collect (segment_of ext js m) (children_named "segment" t) with
  | Done l => Done {| segments := l |}
  | Abort f => Abort f
  end.

(** What the three loaders return for the plugin element [t]
    (see [run_loaders_run]). *)
Definition properties_of (ext : Externals) (js : Model) (m : nat) (base : nat)
  (t : Element) : Outcome Properties :=
  match first_child "sprocket" t with
  | None => Abort NullDereference
  | Some es =>
      match sprocket_of ext js m es with
      | Abort f => Abort f
      | Done s =>
          match first_child "trajectory" t with
          | None => Abort NullDereference
          | Some et =>
              match trajectory_of ext js m et with
              | Abort f => Abort f
              | Done tr =>
                  match first_child "pattern" t with
                  | None => Abort NullDereference
                  | Some ep =>
                      match pattern_of base ep with
                      | Abort f => Abort f
                      | Done pat =>
                          Done {| sprocket := s; trajectory := tr; pattern := pat |}
                      end
                  end
              end
          end
      end
  end.

(** The trees cloned while the plugin element [t] is loaded. *)
Definition plugin_clones (t : Element) : list Element :=
  match first_child "pattern" t with
  | Some ep => clones_of (children_named "element" ep)
  | None => []
  end.

(** The content [sdf::initFile] leaves in the format seed. *)
Definition seed_content (ext : Externals) : Element :=
  (initFile ext
     (getPath ext "gazebo_continuous_track" ++ "/sdf/continuous_track_plugin.sdf")
     (Elem EmptyString VEmpty [])).2.

(** The call of [sdf::readString] in [AssertPluginSDF], for the format
    copy [fmt] and the plugin element [t]: its verdict and the merged tree
    it leaves in the copy. *)
Definition validation (ext : Externals) (fmt t : Element) : bool * Element :=
  readString ext
    ("<sdf version='" ++ SDF_VERSION ext ++ "'>" ++ ToString ext t EmptyString ++ "</sdf>")
    fmt.

(** The [static] of [AssertPluginSDF] is not yet initialised or points to
    a live element. *)
Definition static_ok (w : World) : Prop :=
  forall p, fmt_seed_static w = Some p -> is_Some (element_at (heap w) p).

(** A segment as [LoadTrajectory] reads it from the segment element [c]:
    the joint that the name in [c] resolves to in the joints [js] of model
    [m], and the end position of [c], bit for bit. *)
Definition segment_loaded_from (js : Model) (m : nat) (seg : Segment)
  (c : Element) : Prop :=
  exists name i d,
    child_value "joint" c = Some (VString name)
    /\ find_joint name js 0 = Some i
    /\ segment_joint seg = Some (m, i)
    /\ child_value "end_position" c = Some (VDouble d)
    /\ end_position seg = d.

(** [q] points to a root of its own, allocated at or after root [base] of
    the heap [h], and the tree there is [c]. *)
Definition fresh_copy (base : nat) (h : list Element) (q : ElementPtr)
  (c : Element) : Prop :=
  exists k, q = Some (k, []) /\ base <= k /\ h !! k = Some c.

(** [q] points in [w'] to a copy of [c] that shares nothing with the
    world [w] from which it was taken: the tree behind [q] is [c]; a
    change made through [q] is seen through no pointer of [w]; a change
    made through a pointer of [w] is not seen through [q].  As [f] is any
    function on the tree, a change anywhere below [q] is covered. *)
Definition isolated_copy (w w' : World) (q : ElementPtr) (c : Element) : Prop :=
  element_at (heap w') q = Some c
  /\ (forall f p e, element_at (heap w) p = Some e ->
                    element_at (mutate f q (heap w')) p = Some e)
  /\ (forall f p, is_Some (element_at (heap w) p) ->
                  element_at (mutate f p (heap w')) q = Some c).

(** The outcome is a result or a failed assertion: no null pointer was
    used, no value had the wrong type and no loop budget ended. *)
Definition result_or_assertion {A} (o : Outcome A) : Prop :=
  match o with
  | Done _ => True
  | Abort (AssertionFailed _) => True
  | Abort _ => False
  end.

(** ** The specification's validator and aggregate

    The construction as the specification words it, to compare with the
    constructor of the header. *)
Module Spec.

(** Modelled from the spec: the plugin format file
    [sdf/continuous_track_plugin.sdf] is not under [src/]; the format is
    the one the specification gives:
    [sprocket { joint: string; pitch_diameter: float }],
    [trajectory { segment+ { joint: string; end_position: float } }],
    [pattern { elements_per_round: uint; element+ { collision*; visual* } }]. *)
Definition has_string (e : Element) : bool :=
  match GetValue e with VString _ => true | _ => false end.

Definition has_double (e : Element) : bool :=
  match GetValue e with VDouble _ => true | _ => false end.

Definition has_uint (e : Element) : bool :=
  match GetValue e with VUInt _ => true | _ => false end.

(** Exactly one child called [tag], and it passes [check]. *)
Definition required_one (tag : string) (check : Element -> bool) (e : Element)
  : bool :=
  match children_named tag e with
  | [c] => check c
  | _ => false
  end.

(** One or more children called [tag], and all pass [check]. *)
Definition required_some (tag : string) (check : Element -> bool) (e : Element)
  : bool :=
  match children_named tag e with
  | [] => false
  | cs => forallb check cs
  end.

Definition conforms_sprocket (e : Element) : bool :=
  required_one "joint" has_string e && required_one "pitch_diameter" has_double e.

Definition conforms_segment (e : Element) : bool :=
  required_one "joint" has_string e && required_one "end_position" has_double e.

Definition conforms_trajectory (e : Element) : bool :=
  required_some "segment" conforms_segment e.

Definition conforms_pattern (e : Element) : bool :=
  required_one "elements_per_round" has_uint e
  && required_some "element" (fun _ => true) e.

Definition conforms (t : Element) : bool :=
  required_one "sprocket" conforms_sprocket t
  && required_one "trajectory" conforms_trajectory t
  && required_one "pattern" conforms_pattern t.

(** [Validate(input) -> DescriptorTree] (or fails): clone the cached
    template, serialise the input, parse the text into the clone; fail on
    a mismatch, return the clone on success. *)
Definition Validate (ext : Externals) (input : ElementPtr) : M ElementPtr :=
  let* seed := fmt_seed ext in
  let* fmt := Clone seed in
  let* e := deref input in
  let* ok := fill (readString ext)
               ("<sdf version='" ++ SDF_VERSION ext ++ "'>"
                ++ ToString ext e EmptyString ++ "</sdf>")%string fmt in
  if ok then ret fmt else fail SchemaViolation.

(** [BuildProperties(model, rawTree) -> Properties]: validate first, then
    run the three extractors against the validated tree. *)
Definition BuildProperties (ext : Externals) (model : ModelPtr)
  (rawTree : ElementPtr) : M Properties :=
  let* validated := Validate ext rawTree in
  run_loaders ext model validated.

End Spec.

(** ** Sample worlds *)
Module Sample.

Definition leaf (tag : string) (v : Value) : Element := Elem tag v [].

(** The bits of hinge and slider joints as in Gazebo's [Base.hh], and a
    parser that accepts everything and leaves the format copy as it is. *)
Definition gazebo : Externals :=
  {| HINGE_JOINT := 0x200;
     SLIDER_JOINT := 0x400;
     SDF_VERSION := "1.6";
     getPath := fun pkg => ("/opt/ros/share/" ++ pkg)%string;
     ToString := fun e pre => (pre ++ "<" ++ GetName e ++ "/>")%string;
     initFile := fun _ fmt => (true, fmt);
     readString := fun _ fmt => (true, fmt) |}.

(** The same with a parser that rejects everything. *)
Definition rejecting : Externals :=
  {| HINGE_JOINT := HINGE_JOINT gazebo;
     SLIDER_JOINT := SLIDER_JOINT gazebo;
     SDF_VERSION := SDF_VERSION gazebo;
     getPath := getPath gazebo;
     ToString := ToString gazebo;
     initFile := initFile gazebo;
     readString := fun _ fmt => (false, fmt) |}.

(** A hinge, a slider and a ball joint; every joint type carries the
    bit [0x40] of joints. *)
Definition vehicle : list Joint :=
  [ {| joint_name := "sprocket_axle"; joint_type := 0x240 |};
    {| joint_name := "idler_slider"; joint_type := 0x440 |};
    {| joint_name := "tow_ball"; joint_type := 0xC0 |} ].

Definition sprocket_elem (joint : string) (pd : float) : Element :=
  Elem "sprocket" VEmpty
    [leaf "joint" (VString joint); leaf "pitch_diameter" (VDouble pd)].

Definition segment_elem (joint : string) (ep : float) : Element :=
  Elem "segment" VEmpty
    [leaf "joint" (VString joint); leaf "end_position" (VDouble ep)].

Definition box : Element := Elem "collision" VEmpty [leaf "box" (VString "0.1 0.02 0.01")].
Definition grouser : Element := Elem "collision" VEmpty [leaf "box" (VString "0.1 0.01 0.02")].
Definition skin : Element := Elem "visual" VEmpty [leaf "mesh" (VString "link.dae")].

Definition trajectory_elem : Element :=
  Elem "trajectory" VEmpty
    [segment_elem "sprocket_axle" 0.001; segment_elem "idler_slider" 1.5].

Definition pattern_elem : Element :=
  Elem "pattern" VEmpty
    [leaf "elements_per_round" (VUInt 5);
     Elem "element" VEmpty [box; grouser];
     Elem "element" VEmpty [skin; box]].

(** A plugin element that conforms to the format. *)
Definition plugin (pd : float) : Element :=
  Elem "plugin" VEmpty [sprocket_elem "sprocket_axle" pd; trajectory_elem; pattern_elem].

(** A plugin element that does not conform to the format: its sprocket
    has a second [pitch_diameter], which is not a number. *)
Definition plugin_ill_typed : Element :=
  Elem "plugin" VEmpty
    [Elem "sprocket" VEmpty
       [leaf "joint" (VString "sprocket_axle");
        leaf "pitch_diameter" (VDouble 0.2);
        leaf "pitch_diameter" (VString "wide")];
     trajectory_elem; pattern_elem].

(** A parser stub that accepts and leaves [plugin 0.4] in the format copy,
    whatever the text. *)
Definition stub : Externals :=
  {| HINGE_JOINT := HINGE_JOINT gazebo;
     SLIDER_JOINT := SLIDER_JOINT gazebo;
     SDF_VERSION := SDF_VERSION gazebo;
     getPath := getPath gazebo;
     ToString := ToString gazebo;
     initFile := initFile gazebo;
     readString := fun _ _ => (true, plugin 0.4) |}.

(** A plugin element whose sprocket names [joint] and whose pattern says
    [n] elements per round; its trajectory has a segment on the ball
    joint. *)
Definition plugin_with (joint : string) (n : N) : Element :=
  Elem "plugin" VEmpty
    [sprocket_elem joint 0.2;
     Elem "trajectory" VEmpty [segment_elem "tow_ball" 1.5];
     Elem "pattern" VEmpty [leaf "elements_per_round" (VUInt n)]].

(** One model, one tree, nothing validated before. *)
Definition world_of (t : Element) : World :=
  {| models := [vehicle]; heap := [t]; fmt_seed_static := None |}.

Definition the_model : ModelPtr := Some 0.
Definition the_plugin : ElementPtr := Some (0, []).

End Sample.

(** A trajectory of one segment, for the statements about one segment. *)
Definition short_trajectory : Element :=
  Elem "trajectory" VEmpty [Sample.segment_elem "idler_slider" 0.001].

(** The number of roots [AssertPluginSDF] allocates: the seed, on the
    first call, and the copy. *)
Definition check_roots (w : World) : nat :=
  match fmt_seed_static w with
  | None => 2
  | Some _ => 1
  end.

(** A run that never stops for want of loop budget. *)
Definition within_budget {A} (c : M A) : Prop :=
  forall w, c w <> Abort LoopBudget.

(** The [static] of [AssertPluginSDF], once initialised, points to the
    format as [sdf::initFile] left it. *)
Definition seed_kept (ext : Externals) (w : World) : Prop :=
  match fmt_seed_static w with
  | None => True
  | Some p => element_at (heap w) p = Some (seed_content ext)
  end.

(** All the sdfs of a pattern, element after element, for each its
    collisions, then its visuals. *)
Definition all_sdfs (pat : Pattern) : list ElementPtr :=
  concat ((fun pe => collision_sdfs pe ++ visual_sdfs pe) <$> elements pat).

(** Two pattern elements with as many collision and as many visual sdfs. *)
Definition same_shape (pe pe' : PatternElement) : Prop :=
  length (collision_sdfs pe) = length (collision_sdfs pe')
  /\ length (visual_sdfs pe) = length (visual_sdfs pe').

(** What the constructor returns for [Sample.plugin 0.2] in
    [Sample.world_of (Sample.plugin 0.2)] with [Sample.gazebo], and the
    world it leaves: the seed and its copy at roots 1 and 2, then the four
    clones. *)
Definition loaded_properties : Properties :=
  {| sprocket := {| sprocket_joint := Some (0, 0); pitch_diameter := 0.2 |};
     trajectory :=
       {| segments :=
            [ {| segment_joint := Some (0, 0); end_position := 0.001 |};
              {| segment_joint := Some (0, 1); end_position := 1.5 |} ] |};
     pattern :=
       {| elements_per_round := 5;
          elements :=
            [ {| collision_sdfs := [Some (3, []); Some (4, [])];
                 visual_sdfs := [] |};
              {| collision_sdfs := [Some (5, [])];
                 visual_sdfs := [Some (6, [])] |} ] |} |}.

Definition loaded_world : World :=
  {| models := [Sample.vehicle];
     heap := [Sample.plugin 0.2; Elem EmptyString VEmpty [];
              Elem EmptyString VEmpty [];
              Sample.box; Sample.grouser; Sample.box; Sample.skin];
     fmt_seed_static := Some (Some (1, [])) |}.

(** A trajectory whose only segment has a NaN as end position. *)
Definition nan_trajectory : Element :=
  Elem "trajectory" VEmpty [Sample.segment_elem "idler_slider" nan].

(** The pattern [LoadPattern] returns for [Sample.pattern_elem] when the
    heap has one tree. *)
Definition two_elements : Pattern :=
  {| elements_per_round := 5;
     elements :=
       [ {| collision_sdfs := [Some (1, []); Some (2, [])]; visual_sdfs := [] |};
         {| collision_sdfs := [Some (3, [])]; visual_sdfs := [Some (4, [])] |} ] |}.

(** A sprocket element with a second [joint] and a second
    [pitch_diameter] after the first ones. *)
Definition sprocket_twice : Element :=
  Elem "sprocket" VEmpty
    (children (Sample.sprocket_elem "sprocket_axle" 0.2)
     ++ [Sample.leaf "joint" (VString "tow_ball");
         Sample.leaf "pitch_diameter" (VDouble 9)]).

(** A trajectory element with other children around its two segments. *)
Definition noisy_trajectory : Element :=
  Elem "trajectory" VEmpty
    [Sample.leaf "comment" (VString "left track");
     Sample.segment_elem "sprocket_axle" 0.001;
     Sample.skin;
     Sample.segment_elem "idler_slider" 1.5].

(** * Properties *)

(** ** Pointers and trees *)

Lemma subtree_app e p q :
  subtree e (p ++ q) = match subtree e p with
                       | Some c => subtree c q
                       | None => None
                       end.
Proof.
  revert e. induction p as [|i p IH]; intros e; simpl; [reflexivity|].
  destruct (children e !! i); [apply IH | reflexivity].
Qed.

Lemma element_at_child h r up i pe :
  element_at h (Some (r, up)) = Some pe ->
  element_at h (Some (r, i :: up)) = children pe !! i.
Proof.
  unfold element_at. destruct (h !! r) as [t|]; [|discriminate].
  simpl rev. rewrite subtree_app. intros ->. simpl.
  destruct (children pe !! i); reflexivity.
Qed.

Lemma element_at_root h h' r p :
  h' !! r = h !! r ->
  element_at h' (Some (r, p)) = element_at h (Some (r, p)).
Proof. unfold element_at. intros ->. reflexivity. Qed.

Lemma element_at_app h t p e :
  element_at h p = Some e -> element_at (h ++ t) p = Some e.
Proof.
  destruct p as [[r rp]|]; [|discriminate]. unfold element_at.
  destruct (h !! r) as [x|] eqn:E; [|discriminate].
  rewrite (lookup_app_l_Some _ _ _ _ E). trivial.
Qed.

Lemma element_at_valid h r p e :
  element_at h (Some (r, p)) = Some e -> r < length h.
Proof.
  unfold element_at. destruct (h !! r) eqn:E; [|discriminate].
  intros _. eapply lookup_lt_Some, E.
Qed.

Lemma find_child_named tag l k :
  find_child tag l k = fst <$> head (named tag l k).
Proof.
  revert k. induction l as [|c l IH]; intros k; simpl; [reflexivity|].
  destruct (String.eqb (GetName c) tag); [reflexivity | apply IH].
Qed.

Lemma named_lookup tag l k i c :
  (i, c) ∈ named tag l k ->
  k <= i /\ l !! (i - k) = Some c /\ GetName c = tag.
Proof.
  revert k. induction l as [|x l IH]; intros k; simpl.
  - intros H. inversion H.
  - destruct (String.eqb (GetName x) tag) eqn:E.
    + intros H. apply elem_of_cons in H as [H|H].
      * inversion H; subst. replace (k - k) with 0 by lia.
        apply String.eqb_eq in E. auto.
      * apply IH in H as (Hk & Hl & Hn). split; [lia|]. split; [|exact Hn].
        replace (i - k) with (S (i - S k)) by lia. exact Hl.
    + intros H. apply IH in H as (Hk & Hl & Hn). split; [lia|].
      split; [|exact Hn].
      replace (i - k) with (S (i - S k)) by lia. exact Hl.
Qed.

(** [named] lists exactly the children with that tag, in their order. *)
Lemma named_filter tag l k :
  (named tag l k).*2 = filter (fun c => GetName c = tag) l.
Proof.
  revert k. induction l as [|c l IH]; intros k; simpl; [reflexivity|].
  rewrite filter_cons. destruct (String.eqb (GetName c) tag) eqn:E.
  - apply String.eqb_eq in E. rewrite decide_True by exact E.
    simpl. f_equal. apply IH.
  - apply String.eqb_neq in E. rewrite decide_False by exact E. apply IH.
Qed.

(** ** Running the monad *)

Lemma bind_done {A B} (m : M A) (k : A -> M B) w a w' :
  m w = Done (a, w') -> bind m k w = k a w'.
Proof. unfold bind. intros ->. reflexivity. Qed.

Lemma bind_abort {A B} (m : M A) (k : A -> M B) w f :
  m w = Abort f -> bind m k w = Abort f.
Proof. unfold bind. intros ->. reflexivity. Qed.

Lemma deref_run p w e :
  element_at (heap w) p = Some e -> deref p w = Done (e, w).
Proof. unfold deref. intros ->. reflexivity. Qed.

Lemma deref_null p w :
  element_at (heap w) p = None -> deref p w = Abort NullDereference.
Proof. unfold deref. intros ->. reflexivity. Qed.

Lemma GetElement_run p tag w e :
  element_at (heap w) p = Some e ->
  GetElement p tag w
  = Done (match find_child tag (children e) 0 with
          | Some i => child p i
          | None => None
          end, w).
Proof. intros H. unfold GetElement. rewrite (bind_done _ _ _ _ _ (deref_run _ _ _ H)). reflexivity. Qed.

Lemma HasElement_run p tag w e :
  element_at (heap w) p = Some e ->
  HasElement p tag w
  = Done (match find_child tag (children e) 0 with
          | Some _ => true
          | None => false
          end, w).
Proof. intros H. unfold HasElement. rewrite (bind_done _ _ _ _ _ (deref_run _ _ _ H)). reflexivity. Qed.

Lemma child_count_run p w e :
  element_at (heap w) p = Some e ->
  child_count p w = Done (length (children e), w).
Proof. intros H. unfold child_count. rewrite (bind_done _ _ _ _ _ (deref_run _ _ _ H)). reflexivity. Qed.

Lemma GetNextElement_run r i up tag w pe c :
  element_at (heap w) (Some (r, up)) = Some pe ->
  children pe !! i = Some c ->
  GetNextElement (Some (r, i :: up)) tag w
  = Done (match find_child tag (drop (S i) (children pe)) (S i) with
          | Some j => Some (r, j :: up)
          | None => None
          end, w).
Proof.
  intros Hp Hc. unfold GetNextElement.
  assert (Hd : element_at (heap w) (Some (r, i :: up)) = Some c)
    by (rewrite (element_at_child _ _ _ _ _ Hp); exact Hc).
  rewrite (bind_done _ _ _ _ _ (deref_run _ _ _ Hd)).
  rewrite (bind_done _ _ _ _ _ (deref_run _ _ _ Hp)). reflexivity.
Qed.

(** The loop visits the children called [tag] one after the other, in
    document order, and its budget is enough, as long as a round leaves the
    tree it iterates over in place. *)
Lemma for_elements_rounds {A} tag (body : ElementPtr -> A -> M A) r up :
  (forall p a w a' w', r < length (heap w) -> body p a w = Done (a', w') ->
                       heap w' !! r = heap w !! r) ->
  forall l pre pe budget acc w,
    element_at (heap w) (Some (r, up)) = Some pe ->
    children pe = pre ++ l ->
    length l <= budget ->
    for_elements budget tag body
      (match find_child tag l (length pre) with
       | Some j => Some (r, j :: up)
       | None => None
       end) acc w
    = rounds body ((fun ic => Some (r, ic.1 :: up)) <$> named tag l (length pre))
        acc w.
Proof.
  intros Hframe. induction l as [|c l IH]; intros pre pe budget acc w Hp He Hb.
  - simpl. destruct budget; reflexivity.
  - assert (He' : children pe = (pre ++ [c]) ++ l) by (rewrite <- app_assoc; exact He).
    assert (Hlen : length (pre ++ [c]) = S (length pre))
      by (rewrite length_app; simpl; lia).
    simpl in Hb. simpl find_child. simpl named.
    destruct (String.eqb (GetName c) tag).
    + destruct budget as [|budget]; [lia|].
      simpl. unfold bind at 1 3.
      destruct (body (Some (r, length pre :: up)) acc w) as [[acc' w']|f] eqn:Hbody;
        [|reflexivity].
      assert (Hp' : element_at (heap w') (Some (r, up)) = Some pe).
      { rewrite (element_at_root (heap w) (heap w')); [exact Hp|].
        eapply Hframe; [eapply element_at_valid, Hp | exact Hbody]. }
      assert (Hc : children pe !! length pre = Some c).
      { rewrite He. rewrite lookup_app_r by lia.
        replace (length pre - length pre) with 0 by lia. reflexivity. }
      rewrite (bind_done _ _ _ _ _ (GetNextElement_run _ _ _ tag _ _ _ Hp' Hc)).
      assert (Hdrop : drop (S (length pre)) (children pe) = l).
      { rewrite He'. rewrite <- Hlen. apply drop_app_length. }
      rewrite Hdrop, <- Hlen. apply (IH _ pe); [exact Hp' | exact He' | lia].
    + rewrite <- Hlen. apply (IH _ pe); [exact Hp | exact He' | lia].
Qed.

(** The same, for a loop over all the children of [p] called [tag]. *)
Lemma for_elements_children {A} tag (body : ElementPtr -> A -> M A) r up pe acc w :
  (forall p a w a' w', r < length (heap w) -> body p a w = Done (a', w') ->
                       heap w' !! r = heap w !! r) ->
  element_at (heap w) (Some (r, up)) = Some pe ->
  for_elements (length (children pe)) tag body
    (match find_child tag (children pe) 0 with
     | Some i => child (Some (r, up)) i
     | None => None
     end) acc w
  = rounds body (children_ptrs tag (Some (r, up)) pe) acc w.
Proof.
  intros Hframe Hp.
  apply (for_elements_rounds tag body r up Hframe (children pe) [] pe);
    [exact Hp | reflexivity | lia].
Qed.

(** Reading the value of a required child: [p->GetElement(tag)->Get<T>()]. *)
Lemma child_value_at p tag w e v :
  element_at (heap w) p = Some e ->
  child_value tag e = Some v ->
  exists c ce,
    GetElement p tag w = Done (c, w)
    /\ element_at (heap w) c = Some ce /\ GetValue ce = v.
Proof.
  intros Hp Hv. rewrite (GetElement_run _ _ _ _ Hp).
  unfold child_value in Hv.
  destruct (find_child tag (children e) 0) as [i|]; [|discriminate].
  destruct (children e !! i) as [ce|] eqn:Hi; [|discriminate].
  exists (child p i), ce. split; [reflexivity|].
  destruct p as [[r up]|]; [|discriminate]. simpl child.
  rewrite (element_at_child _ _ _ _ _ Hp). split; [exact Hi|].
  simpl in Hv. congruence.
Qed.

Lemma child_value_none p tag w e :
  element_at (heap w) p = Some e ->
  child_value tag e = None ->
  GetElement p tag w = Done (None, w).
Proof.
  intros Hp Hv. rewrite (GetElement_run _ _ _ _ Hp). unfold child_value in Hv.
  destruct (find_child tag (children e) 0) as [i|] eqn:Hf; [|reflexivity].
  exfalso. rewrite find_child_named in Hf.
  destruct (named tag (children e) 0) as [|[i' c] l] eqn:Hn; [discriminate|].
  simpl in Hf. injection Hf as ->.
  assert (Hin : (i, c) ∈ named tag (children e) 0) by (rewrite Hn; left).
  apply named_lookup in Hin as (_ & Hl & _).
  replace (i - 0) with i in Hl by lia. rewrite Hl in Hv. discriminate.
Qed.

Lemma read_string {B} p tag w e (k : string -> M B) :
  element_at (heap w) p = Some e ->
  bind (GetElement p tag) (fun c => bind (Get_string c) k) w
  = match child_value tag e with
    | Some (VString s) => k s w
    | Some _ => Abort BadValue
    | None => Abort NullDereference
    end.
Proof.
  intros Hp. destruct (child_value tag e) as [v|] eqn:Hv.
  - destruct (child_value_at _ _ _ _ _ Hp Hv) as (c & ce & Hg & Hc & Hval).
    rewrite (bind_done _ _ _ _ _ Hg). unfold Get_string, bind, deref.
    rewrite Hc, Hval. destruct v; reflexivity.
  - rewrite (bind_done _ _ _ _ _ (child_value_none _ _ _ _ Hp Hv)). reflexivity.
Qed.

Lemma read_double {B} p tag w e (k : float -> M B) :
  element_at (heap w) p = Some e ->
  bind (GetElement p tag) (fun c => bind (Get_double c) k) w
  = match child_value tag e with
    | Some (VDouble d) => k d w
    | Some _ => Abort BadValue
    | None => Abort NullDereference
    end.
Proof.
  intros Hp. destruct (child_value tag e) as [v|] eqn:Hv.
  - destruct (child_value_at _ _ _ _ _ Hp Hv) as (c & ce & Hg & Hc & Hval).
    rewrite (bind_done _ _ _ _ _ Hg). unfold Get_double, bind, deref.
    rewrite Hc, Hval. destruct v; reflexivity.
  - rewrite (bind_done _ _ _ _ _ (child_value_none _ _ _ _ Hp Hv)). reflexivity.
Qed.

Lemma read_size_t {B} p tag w e (k : N -> M B) :
  element_at (heap w) p = Some e ->
  bind (GetElement p tag) (fun c => bind (Get_size_t c) k) w
  = match child_value tag e with
    | Some (VUInt n) => k n w
    | Some _ => Abort BadValue
    | None => Abort NullDereference
    end.
Proof.
  intros Hp. destruct (child_value tag e) as [v|] eqn:Hv.
  - destruct (child_value_at _ _ _ _ _ Hp Hv) as (c & ce & Hg & Hc & Hval).
    rewrite (bind_done _ _ _ _ _ Hg). unfold Get_size_t, bind, deref.
    rewrite Hc, Hval. destruct v; reflexivity.
  - rewrite (bind_done _ _ _ _ _ (child_value_none _ _ _ _ Hp Hv)). reflexivity.
Qed.

Lemma find_joint_lookup name l k i :
  find_joint name l k = Some i ->
  k <= i /\ exists j, l !! (i - k) = Some j /\ joint_name j = name.
Proof.
  revert k. induction l as [|x l IH]; intros k; simpl; [discriminate|].
  destruct (String.eqb (joint_name x) name) eqn:E.
  - intros [= <-]. split; [lia|]. exists x. replace (k - k) with 0 by lia.
    apply String.eqb_eq in E. auto.
  - intros H. apply IH in H as (Hk & j & Hj & Hn). split; [lia|].
    exists j. replace (i - k) with (S (i - S k)) by lia. auto.
Qed.

Lemma truthy_spec z : truthy z = true <-> z <> 0%Z.
Proof.
  unfold truthy. destruct (Z.eqb_spec z 0); simpl; split; intros; congruence.
Qed.

Lemma truthy_zero z : truthy z = false <-> z = 0%Z.
Proof.
  unfold truthy. destruct (Z.eqb_spec z 0); simpl; split; intros; congruence.
Qed.

(** ** The sprocket *)

Lemma GetJoint_run w m js name :
  models w !! m = Some js ->
  GetJoint (Some m) name w
  = Done (match find_joint name js 0 with
          | Some i => Some (m, i)
          | None => None
          end, w).
Proof. intros H. unfold GetJoint. rewrite H. reflexivity. Qed.

Lemma LoadSprocket_run ext w m js _sdf e :
  models w !! m = Some js ->
  element_at (heap w) _sdf = Some e ->
  LoadSprocket ext (Some m) _sdf w = lift w (sprocket_of ext js m e).
Proof.
  intros Hm Hp. unfold LoadSprocket, sprocket_of.
  rewrite (read_string _ _ _ _ _ Hp).
  destruct (child_value "joint" e) as [[|name|d|n]|]; try reflexivity.
  rewrite (bind_done _ _ _ _ _ (GetJoint_run _ _ _ name Hm)).
  destruct (find_joint name js 0) as [i|]; [|reflexivity].
  unfold bind at 1. simpl. unfold bind at 1. unfold GetType. rewrite Hm.
  destruct (js !! i) as [j|]; [|reflexivity].
  unfold bind at 1.
  destruct (truthy (Z.land (joint_type j) (HINGE_JOINT ext))); [|reflexivity].
  simpl. rewrite (read_double _ _ _ _ _ Hp).
  destruct (child_value "pitch_diameter" e) as [[|s|d|n]|]; reflexivity.
Qed.


(** ** What a run may change *)

Create HintDb frame.

Lemma grows_refl w : grows w w.
Proof. repeat split. exists []. symmetry. apply app_nil_r. Qed.

Lemma grows_trans w1 w2 w3 : grows w1 w2 -> grows w2 w3 -> grows w1 w3.
Proof.
  intros (Hm & Hs & t & Ht) (Hm' & Hs' & t' & Ht').
  split; [congruence|]. split; [congruence|].
  exists (t ++ t'). rewrite Ht', Ht. symmetry. apply app_assoc.
Qed.

Lemma grows_element_at w w' p e :
  grows w w' -> element_at (heap w) p = Some e -> element_at (heap w') p = Some e.
Proof. intros (_ & _ & t & ->). apply element_at_app. Qed.

Lemma grows_lookup w w' r :
  grows w w' -> r < length (heap w) -> heap w' !! r = heap w !! r.
Proof. intros (_ & _ & t & ->) Hr. apply lookup_app_l. exact Hr. Qed.

Lemma read_only_allocates_only {A} (c : M A) : read_only c -> allocates_only c.
Proof. intros H w a w' Hc. rewrite (H _ _ _ Hc). apply grows_refl. Qed.

Lemma read_only_ret {A} (a : A) : read_only (ret a).
Proof. intros w x w' [= _ <-]. reflexivity. Qed.

Lemma read_only_fail {A} f : read_only (@fail A f).
Proof. intros w x w' H. discriminate H. Qed.

Lemma read_only_bind {A B} (c : M A) (k : A -> M B) :
  read_only c -> (forall a, read_only (k a)) -> read_only (bind c k).
Proof.
  intros Hc Hk w b w' H. unfold bind in H.
  destruct (c w) as [[a w1]|f] eqn:E; [|discriminate].
  apply Hc in E. subst w1. eapply Hk, H.
Qed.

Lemma allocates_only_bind {A B} (c : M A) (k : A -> M B) :
  allocates_only c -> (forall a, allocates_only (k a)) -> allocates_only (bind c k).
Proof.
  intros Hc Hk w b w' H. unfold bind in H.
  destruct (c w) as [[a w1]|f] eqn:E; [|discriminate].
  eapply grows_trans; [eapply Hc, E | eapply Hk, H].
Qed.

Lemma read_only_GZ_ASSERT b msg : read_only (GZ_ASSERT b msg).
Proof. destruct b; [apply read_only_ret | apply read_only_fail]. Qed.

Lemma read_only_deref p : read_only (deref p).
Proof.
  intros w a w' H. unfold deref in H.
  destruct (element_at (heap w) p); congruence.
Qed.

#[local] Hint Resolve read_only_ret read_only_fail read_only_GZ_ASSERT
  read_only_deref : frame.
#[local] Hint Extern 2 (read_only (bind _ _)) =>
  apply read_only_bind; [|intros ?] : frame.
#[local] Hint Extern 2 (read_only (match ?x with _ => _ end)) => destruct x : frame.

Lemma read_only_HasElement p tag : read_only (HasElement p tag).
Proof. unfold HasElement. auto with frame. Qed.

Lemma read_only_GetElement p tag : read_only (GetElement p tag).
Proof. unfold GetElement. auto with frame. Qed.

Lemma read_only_GetNextElement p tag : read_only (GetNextElement p tag).
Proof. unfold GetNextElement. auto 7 with frame. Qed.

Lemma read_only_Get_string p : read_only (Get_string p).
Proof. unfold Get_string. auto with frame. Qed.

Lemma read_only_Get_double p : read_only (Get_double p).
Proof. unfold Get_double. auto with frame. Qed.

Lemma read_only_Get_size_t p : read_only (Get_size_t p).
Proof. unfold Get_size_t. auto with frame. Qed.

Lemma read_only_child_count p : read_only (child_count p).
Proof. unfold child_count. auto with frame. Qed.

Lemma read_only_GetJoint m name : read_only (GetJoint m name).
Proof.
  intros w a w' H. unfold GetJoint in H.
  destruct m as [m|]; [|discriminate].
  destruct (models w !! m); congruence.
Qed.

Lemma read_only_GetType j : read_only (GetType j).
Proof.
  intros w a w' H. unfold GetType in H.
  destruct j as [[m i]|]; [|discriminate].
  destruct (models w !! m) as [js|]; [|discriminate].
  destruct (js !! i); congruence.
Qed.

#[local] Hint Resolve read_only_HasElement read_only_GetElement
  read_only_GetNextElement read_only_Get_string read_only_Get_double
  read_only_Get_size_t read_only_child_count read_only_GetJoint
  read_only_GetType : frame.

Lemma read_only_for_elements {A} budget tag (body : ElementPtr -> A -> M A) :
  (forall p a, read_only (body p a)) ->
  forall e acc, read_only (for_elements budget tag body e acc).
Proof.
  intros Hb. induction budget as [|n IH]; intros [e|] acc; simpl;
    auto with frame.
Qed.

Lemma allocates_only_alloc t : allocates_only (alloc t).
Proof.
  intros w a w' [= _ <-]. repeat split. exists [t]. reflexivity.
Qed.

Lemma allocates_only_Clone p : allocates_only (Clone p).
Proof.
  unfold Clone. apply allocates_only_bind.
  - apply read_only_allocates_only, read_only_deref.
  - intros e. apply allocates_only_alloc.
Qed.

Lemma allocates_only_for_elements {A} budget tag (body : ElementPtr -> A -> M A) :
  (forall p a, allocates_only (body p a)) ->
  forall e acc, allocates_only (for_elements budget tag body e acc).
Proof.
  intros Hb. induction budget as [|n IH]; intros [e|] acc; simpl.
  - apply read_only_allocates_only, read_only_fail.
  - apply read_only_allocates_only, read_only_ret.
  - apply allocates_only_bind; [apply Hb|]. intros a.
    apply allocates_only_bind;
      [apply read_only_allocates_only, read_only_GetNextElement | intros next; apply IH].
  - apply read_only_allocates_only, read_only_ret.
Qed.

(** ** The trajectory *)

Lemma read_only_LoadSprocket ext m p : read_only (LoadSprocket ext m p).
Proof. unfold LoadSprocket. auto 20 with frame. Qed.

Lemma read_only_segment_round ext m p tr : read_only (segment_round ext m p tr).
Proof. unfold segment_round. auto 20 with frame. Qed.

Lemma segment_round_run ext w m js p c tr :
  models w !! m = Some js ->
  element_at (heap w) p = Some c ->
  segment_round ext (Some m) p tr w
  = lift w (match segment_of ext js m c with
            | Done s => Done {| segments := segments tr ++ [s] |}
            | Abort f => Abort f
            end).
Proof.
  intros Hm Hp. unfold segment_round, segment_of.
  rewrite (read_string _ _ _ _ _ Hp).
  destruct (child_value "joint" c) as [[|name|d|n]|]; try reflexivity.
  rewrite (bind_done _ _ _ _ _ (GetJoint_run _ _ _ name Hm)).
  destruct (find_joint name js 0) as [i|]; [|reflexivity].
  unfold bind at 1. simpl. unfold bind at 1. unfold GetType. rewrite Hm.
  destruct (js !! i) as [j|]; [|reflexivity].
  unfold bind at 1.
  destruct (truthy (Z.land (joint_type j) (HINGE_JOINT ext))
            || truthy (Z.land (joint_type j) (SLIDER_JOINT ext))); [|reflexivity].
  simpl. rewrite (read_double _ _ _ _ _ Hp).
  destruct (child_value "end_position" c) as [[|s|d|n]|]; try reflexivity.
  unfold bind. destruct (PrimFloat.ltb 0 d); reflexivity.
Qed.

Lemma named_element_at h r up pe tag i c :
  element_at h (Some (r, up)) = Some pe ->
  (i, c) ∈ named tag (children pe) 0 ->
  element_at h (Some (r, i :: up)) = Some c.
Proof.
  intros Hp Hin. rewrite (element_at_child _ _ _ _ _ Hp).
  apply named_lookup in Hin as (_ & Hl & _).
  replace (i - 0) with i in Hl by lia. exact Hl.
Qed.

Lemma rounds_segments ext w m js r up (ics : list (nat * Element)) :
  models w !! m = Some js ->
  (forall i c, (i, c) ∈ ics -> element_at (heap w) (Some (r, i :: up)) = Some c) ->
  forall tr,
    rounds (segment_round ext (Some m)) ((fun ic => Some (r, ic.1 :: up)) <$> ics) tr w
    = lift w (match collect (segment_of ext js m) ics.*2 with
              | Done l => Done {| segments := segments tr ++ l |}
              | Abort f => Abort f
              end).
Proof.
  intros Hm. induction ics as [|[i c] ics IH]; intros Hat tr; simpl.
  - rewrite app_nil_r. destruct tr; reflexivity.
  - unfold bind.
    rewrite (segment_round_run ext w m js _ c tr Hm) by (apply Hat; left).
    destruct (segment_of ext js m c) as [s|f]; [|reflexivity]. simpl.
    rewrite IH by (intros i' c' H; apply Hat; right; exact H). simpl.
    change (list_fmap _ _ snd ics) with (ics.*2).
    destruct (collect (segment_of ext js m) ics.*2); [|reflexivity].
    simpl. rewrite <- app_assoc. reflexivity.
Qed.

Lemma rounds_app {A} (body : ElementPtr -> A -> M A) ps1 ps2 acc w :
  rounds body (ps1 ++ ps2) acc w
  = bind (rounds body ps1 acc) (fun a => rounds body ps2 a) w.
Proof.
  revert acc w. induction ps1 as [|p ps1 IH]; intros acc w; simpl; [reflexivity|].
  unfold bind in *. destruct (body p acc w) as [[a w']|f]; [apply IH|reflexivity].
Qed.

(** The loop of [LoadTrajectory] runs one round per child called
    [segment], in document order. *)
Lemma LoadTrajectory_rounds ext m _sdf w t :
  element_at (heap w) _sdf = Some t ->
  LoadTrajectory ext m _sdf w
  = rounds (segment_round ext m) (children_ptrs "segment" _sdf t)
      {| segments := [] |} w.
Proof.
  intros Hp. unfold LoadTrajectory.
  rewrite (bind_done _ _ _ _ _ (child_count_run _ _ _ Hp)).
  rewrite (bind_done _ _ _ _ _ (GetElement_run _ "segment" _ _ Hp)).
  destruct _sdf as [[r up]|]; [|discriminate].
  apply (for_elements_children "segment" _ r up t); [|exact Hp].
  intros p a w0 a' w' _ H.
  rewrite (read_only_segment_round _ _ _ _ _ _ _ H). reflexivity.
Qed.

(** [LoadTrajectory] as a function of the trajectory element and the
    joints: every child called [segment] is loaded, in document order, and
    the first failure is the failure of the whole. *)
Lemma LoadTrajectory_run ext w m js _sdf t :
  models w !! m = Some js ->
  element_at (heap w) _sdf = Some t ->
  LoadTrajectory ext (Some m) _sdf w = lift w (trajectory_of ext js m t).
Proof.
  intros Hm Hp. rewrite (LoadTrajectory_rounds _ _ _ _ _ Hp).
  destruct _sdf as [[r up]|]; [|discriminate].
  unfold children_ptrs, trajectory_of, children_named. simpl child.
  rewrite (rounds_segments ext w m js r up (named "segment" (children t) 0) Hm).
  - rewrite named_filter. reflexivity.
  - intros i c. apply named_element_at. exact Hp.
Qed.

(** ** The pattern *)

Lemma set_heap_same w : set_heap (heap w) w = w.
Proof. destruct w; reflexivity. Qed.

Lemma Clone_run p w e :
  element_at (heap w) p = Some e ->
  Clone p w = Done (Some (length (heap w), []), set_heap (heap w ++ [e]) w).
Proof.
  intros Hp. unfold Clone. rewrite (bind_done _ _ _ _ _ (deref_run _ _ _ Hp)).
  reflexivity.
Qed.

Lemma rounds_clone r up (ics : list (nat * Element)) :
  forall w acc,
    (forall i c, (i, c) ∈ ics -> element_at (heap w) (Some (r, i :: up)) = Some c) ->
    rounds clone_round ((fun ic => Some (r, ic.1 :: up)) <$> ics) acc w
    = Done (acc ++ fresh_ptrs (length (heap w)) (length ics),
            set_heap (heap w ++ ics.*2) w).
Proof.
  induction ics as [|[i c] ics IH]; intros w acc Hat; simpl.
  - rewrite !app_nil_r, set_heap_same. reflexivity.
  - unfold bind at 1. unfold clone_round at 1.
    rewrite (bind_done _ _ _ _ _ (Clone_run _ _ c (Hat i c ltac:(left)))).
    unfold ret at 1.
    rewrite IH.
    + simpl heap. rewrite length_app. simpl length.
      replace (length (heap w) + 1) with (S (length (heap w))) by lia.
      rewrite <- !app_assoc. reflexivity.
    + intros i' c' H. simpl heap. apply element_at_app, Hat. right. exact H.
Qed.

Lemma find_child_none_named tag l k :
  find_child tag l k = None -> named tag l k = [].
Proof.
  rewrite find_child_named. destruct (named tag l k); [reflexivity|discriminate].
Qed.

Lemma clone_round_frame r p a w a' w' :
  r < length (heap w) -> clone_round p a w = Done (a', w') ->
  heap w' !! r = heap w !! r.
Proof.
  intros Hr H. apply grows_lookup; [|exact Hr].
  revert H. apply allocates_only_bind; [apply allocates_only_Clone|].
  intros c. apply read_only_allocates_only, read_only_ret.
Qed.

Lemma clone_children_run p tag w e :
  element_at (heap w) p = Some e ->
  clone_children p tag w
  = Done (fresh_ptrs (length (heap w)) (length (children_named tag e)),
          set_heap (heap w ++ children_named tag e) w).
Proof.
  intros Hp. unfold clone_children, children_named.
  rewrite <- (named_filter tag (children e) 0).
  rewrite (bind_done _ _ _ _ _ (HasElement_run _ tag _ _ Hp)).
  destruct (find_child tag (children e) 0) as [i|] eqn:Hf.
  - rewrite (bind_done _ _ _ _ _ (child_count_run _ _ _ Hp)).
    rewrite (bind_done _ _ _ _ _ (GetElement_run _ tag _ _ Hp)).
    destruct p as [[r up]|]; [|discriminate]. rewrite Hf.
    pose proof (for_elements_children tag clone_round r up e [] w
                  (clone_round_frame r) Hp) as Hloop.
    rewrite Hf in Hloop. rewrite Hloop. unfold children_ptrs. simpl child.
    rewrite rounds_clone.
    + rewrite length_fmap. reflexivity.
    + intros i' c. apply named_element_at. exact Hp.
  - rewrite (find_child_none_named _ _ _ Hf). simpl.
    rewrite app_nil_r, set_heap_same. reflexivity.
Qed.

Lemma element_round_run p w e pat :
  element_at (heap w) p = Some e ->
  element_round p pat w
  = Done ({| elements_per_round := elements_per_round pat;
             elements :=
               elements pat
               ++ [{| collision_sdfs :=
                        fresh_ptrs (length (heap w))
                          (length (children_named "collision" e));
                      visual_sdfs :=
                        fresh_ptrs (length (heap w)
                                    + length (children_named "collision" e))
                          (length (children_named "visual" e)) |}] |},
          set_heap (heap w ++ children_named "collision" e
                    ++ children_named "visual" e) w).
Proof.
  intros Hp. unfold element_round.
  rewrite (bind_done _ _ _ _ _ (clone_children_run _ "collision" _ _ Hp)).
  assert (Hp' : element_at
                  (heap (set_heap (heap w ++ children_named "collision" e) w)) p
                = Some e) by (apply element_at_app, Hp).
  rewrite (bind_done _ _ _ _ _ (clone_children_run _ "visual" _ _ Hp')).
  unfold ret. simpl heap. rewrite length_app, <- app_assoc. reflexivity.
Qed.

Lemma rounds_elements r up (ics : list (nat * Element)) :
  forall w pat,
    (forall i c, (i, c) ∈ ics -> element_at (heap w) (Some (r, i :: up)) = Some c) ->
    rounds element_round ((fun ic => Some (r, ic.1 :: up)) <$> ics) pat w
    = Done ({| elements_per_round := elements_per_round pat;
               elements :=
                 elements pat ++ layout (length (heap w)) ics.*2 |},
            set_heap (heap w ++ clones_of ics.*2) w).
Proof.
  induction ics as [|[i c] ics IH]; intros w pat Hat; simpl.
  - unfold clones_of. simpl. rewrite !app_nil_r, set_heap_same.
    destruct pat; reflexivity.
  - unfold bind at 1.
    rewrite (element_round_run _ _ c pat (Hat i c ltac:(left))).
    rewrite IH.
    + simpl heap. simpl elements_per_round. simpl elements.
      rewrite !length_app. unfold clones_of. simpl.
      rewrite <- !app_assoc. simpl.
      replace (length (heap w)
               + (length (children_named "collision" c)
                  + length (children_named "visual" c)))
        with (length (heap w) + length (children_named "collision" c)
              + length (children_named "visual" c)) by lia.
      reflexivity.
    + intros i' c' H. simpl heap. apply element_at_app, Hat. right. exact H.
Qed.

Lemma allocates_only_clone_children p tag : allocates_only (clone_children p tag).
Proof.
  unfold clone_children. apply allocates_only_bind;
    [apply read_only_allocates_only, read_only_HasElement|].
  intros [|]; [|apply read_only_allocates_only, read_only_ret].
  apply allocates_only_bind;
    [apply read_only_allocates_only, read_only_child_count|]. intros n.
  apply allocates_only_bind;
    [apply read_only_allocates_only, read_only_GetElement|]. intros first.
  apply allocates_only_for_elements. intros q a. unfold clone_round.
  apply allocates_only_bind; [apply allocates_only_Clone|].
  intros c. apply read_only_allocates_only, read_only_ret.
Qed.

Lemma allocates_only_element_round p pat : allocates_only (element_round p pat).
Proof.
  unfold element_round.
  apply allocates_only_bind; [apply allocates_only_clone_children|]. intros cs.
  apply allocates_only_bind; [apply allocates_only_clone_children|]. intros vs.
  apply read_only_allocates_only, read_only_ret.
Qed.

(** [LoadPattern] as a function of the pattern element and the size of
    the heap: the clones are appended to the heap in the order of
    [clones_of]; the model argument is not looked at. *)
Lemma LoadPattern_run _model _sdf w t :
  element_at (heap w) _sdf = Some t ->
  LoadPattern _model _sdf w
  = match pattern_of (length (heap w)) t with
    | Done pat =>
        Done (pat, set_heap (heap w ++ clones_of (children_named "element" t)) w)
    | Abort f => Abort f
    end.
Proof.
  intros Hp. unfold LoadPattern, pattern_of.
  rewrite (read_size_t _ _ _ _ _ Hp).
  destruct (child_value "elements_per_round" t) as [[|s|d|n]|]; try reflexivity.
  unfold bind at 1. destruct (N.ltb 0 n); [|reflexivity]. simpl.
  rewrite (bind_done _ _ _ _ _ (child_count_run _ _ _ Hp)).
  rewrite (bind_done _ _ _ _ _ (GetElement_run _ "element" _ _ Hp)).
  destruct _sdf as [[r up]|]; [|discriminate].
  rewrite (for_elements_children "element" element_round r up t).
  - unfold children_ptrs. simpl child. rewrite rounds_elements.
    + unfold children_named at 1 2. rewrite named_filter. reflexivity.
    + intros i c. apply named_element_at. exact Hp.
  - intros p a w0 a' w' Hr H. apply grows_lookup; [|exact Hr].
    eapply allocates_only_element_round, H.
  - exact Hp.
Qed.

(** ** What the loaders may change *)

Lemma read_only_LoadTrajectory ext m p : read_only (LoadTrajectory ext m p).
Proof.
  unfold LoadTrajectory. apply read_only_bind; [auto with frame|]. intros n.
  apply read_only_bind; [auto with frame|]. intros first.
  apply read_only_for_elements. intros q a. apply read_only_segment_round.
Qed.

Lemma allocates_only_LoadPattern m p : allocates_only (LoadPattern m p).
Proof.
  unfold LoadPattern.
  apply allocates_only_bind;
    [apply read_only_allocates_only, read_only_GetElement|]. intros e.
  apply allocates_only_bind;
    [apply read_only_allocates_only, read_only_Get_size_t|]. intros n.
  apply allocates_only_bind;
    [apply read_only_allocates_only, read_only_GZ_ASSERT|]. intros _.
  apply allocates_only_bind;
    [apply read_only_allocates_only, read_only_child_count|]. intros b.
  apply allocates_only_bind;
    [apply read_only_allocates_only, read_only_GetElement|]. intros first.
  apply allocates_only_for_elements. intros q a.
  apply allocates_only_element_round.
Qed.

(** ** The constructor *)

Lemma ContinuousTrackProperties_unfold ext _model _sdf :
  ContinuousTrackProperties ext _model _sdf
  = (AssertPluginSDF ext _sdf ;;; run_loaders ext _model _sdf).
Proof. reflexivity. Qed.

Lemma GetElement_first_child p tag w e :
  element_at (heap w) p = Some e ->
  exists c, GetElement p tag w = Done (c, w)
            /\ element_at (heap w) c = first_child tag e.
Proof.
  intros Hp. rewrite (GetElement_run _ _ _ _ Hp). unfold first_child.
  destruct (find_child tag (children e) 0) as [i|].
  - exists (child p i). split; [reflexivity|].
    destruct p as [[r up]|]; [|discriminate]. simpl child.
    apply element_at_child. exact Hp.
  - exists None. split; reflexivity.
Qed.

Lemma LoadSprocket_null ext m w p :
  element_at (heap w) p = None ->
  LoadSprocket ext m p w = Abort NullDereference.
Proof.
  intros H. unfold LoadSprocket, GetElement.
  apply bind_abort, bind_abort, deref_null, H.
Qed.

Lemma LoadTrajectory_null ext m w p :
  element_at (heap w) p = None ->
  LoadTrajectory ext m p w = Abort NullDereference.
Proof.
  intros H. unfold LoadTrajectory, child_count.
  apply bind_abort, bind_abort, deref_null, H.
Qed.

Lemma LoadPattern_null m w p :
  element_at (heap w) p = None ->
  LoadPattern m p w = Abort NullDereference.
Proof.
  intros H. unfold LoadPattern, GetElement.
  apply bind_abort, bind_abort, deref_null, H.
Qed.

(** The loaders as a function of the plugin element, the joints and the
    size of the heap. *)
Lemma run_loaders_run ext w m js tree t :
  models w !! m = Some js ->
  element_at (heap w) tree = Some t ->
  run_loaders ext (Some m) tree w
  = match properties_of ext js m (length (heap w)) t with
    | Done props => Done (props, set_heap (heap w ++ plugin_clones t) w)
    | Abort f => Abort f
    end.
Proof.
  intros Hm Hp. unfold run_loaders, properties_of, plugin_clones.
  destruct (GetElement_first_child _ "sprocket" _ _ Hp) as (ps & Hg & Hs).
  rewrite (bind_done _ _ _ _ _ Hg). clear Hg.
  destruct (first_child "sprocket" t) as [es|];
    [|apply bind_abort, LoadSprocket_null, Hs].
  unfold bind at 1. rewrite (LoadSprocket_run _ _ _ _ _ _ Hm Hs).
  destruct (sprocket_of ext js m es) as [s|f]; [|reflexivity]. simpl.
  destruct (GetElement_first_child _ "trajectory" _ _ Hp) as (pt & Hg & Ht).
  rewrite (bind_done _ _ _ _ _ Hg). clear Hg.
  destruct (first_child "trajectory" t) as [et|];
    [|apply bind_abort, LoadTrajectory_null, Ht].
  unfold bind at 1. rewrite (LoadTrajectory_run _ _ _ _ _ _ Hm Ht).
  destruct (trajectory_of ext js m et) as [tr|f]; [|reflexivity]. simpl.
  destruct (GetElement_first_child _ "pattern" _ _ Hp) as (pp & Hg & Hpp).
  rewrite (bind_done _ _ _ _ _ Hg). clear Hg.
  destruct (first_child "pattern" t) as [ep|];
    [|apply bind_abort, LoadPattern_null, Hpp].
  unfold bind at 1. rewrite (LoadPattern_run _ _ _ _ Hpp).
  destruct (pattern_of (length (heap w)) ep) as [pat|f]; reflexivity.
Qed.

(** ** The format check *)

Lemma fill_run f arg p w e :
  element_at (heap w) p = Some e ->
  fill f arg p w
  = Done ((f arg e).1, set_heap (mutate (fun _ => (f arg e).2) p (heap w)) w).
Proof.
  intros Hp. unfold fill. rewrite (bind_done _ _ _ _ _ (deref_run _ _ _ Hp)).
  destruct (f arg e); reflexivity.
Qed.

Lemma element_at_last h x : element_at (h ++ [x]) (Some (length h, [])) = Some x.
Proof.
  unfold element_at. rewrite lookup_app_r by lia.
  replace (length h - length h) with 0 by lia. reflexivity.
Qed.

Lemma mutate_last f h x :
  mutate f (Some (length h, [])) (h ++ [x]) = h ++ [f x].
Proof.
  unfold mutate. rewrite lookup_app_r by lia.
  replace (length h - length h) with 0 by lia. simpl.
  rewrite insert_app_r_alt by lia.
  replace (length h - length h) with 0 by lia. reflexivity.
Qed.

(** The first call initialises the [static], copies it and parses into the
    copy; the verdict of the parser is dropped. *)
Lemma AssertPluginSDF_first ext _sdf w t :
  fmt_seed_static w = None ->
  element_at (heap w) _sdf = Some t ->
  AssertPluginSDF ext _sdf w
  = Done (tt, {| models := models w;
                 heap := heap w ++ [seed_content ext;
                                    (validation ext (seed_content ext) t).2];
                 fmt_seed_static := Some (Some (length (heap w), [])) |}).
Proof.
  intros Hs Hp. unfold AssertPluginSDF, fmt_seed.
  unfold bind at 1. unfold bind at 1. unfold get_world at 1. rewrite Hs.
  unfold bind at 1. unfold InitializedPluginSDF, new_Element.
  unfold bind at 1. unfold alloc at 1.
  unfold bind at 1.
  rewrite (fill_run _ _ _ _ (Elem EmptyString VEmpty [])) by apply element_at_last.
  simpl heap. rewrite mutate_last. fold (seed_content ext).
  unfold ret at 1. unfold bind at 1. unfold get_world at 1.
  unfold bind at 1. unfold put_world at 1. unfold ret at 1.
  erewrite bind_done; [|apply Clone_run; simpl heap; apply element_at_last].
  erewrite bind_done;
    [|apply deref_run; simpl heap; rewrite <- app_assoc; apply element_at_app, Hp].
  unfold bind at 1.
  rewrite (fill_run _ _ _ _ (seed_content ext)) by (simpl heap; apply element_at_last).
  simpl heap. rewrite mutate_last. fold (validation ext (seed_content ext) t).
  unfold ret, set_heap. simpl. rewrite <- !app_assoc. reflexivity.
Qed.

(** A later call copies the [static] it finds. *)
Lemma AssertPluginSDF_cached ext _sdf w t p seed :
  fmt_seed_static w = Some p ->
  element_at (heap w) p = Some seed ->
  element_at (heap w) _sdf = Some t ->
  AssertPluginSDF ext _sdf w
  = Done (tt, set_heap (heap w ++ [(validation ext seed t).2]) w).
Proof.
  intros Hs Hseed Hp. unfold AssertPluginSDF, fmt_seed.
  unfold bind at 1. unfold bind at 1. unfold get_world at 1. rewrite Hs.
  unfold ret at 1.
  rewrite (bind_done _ _ _ _ _ (Clone_run _ _ seed Hseed)).
  erewrite bind_done; [|apply deref_run; simpl heap; apply element_at_app, Hp].
  unfold bind at 1.
  rewrite (fill_run _ _ _ _ seed) by (simpl heap; apply element_at_last).
  simpl heap. rewrite mutate_last. reflexivity.
Qed.

(** Whatever the parser says, [AssertPluginSDF] returns; it leaves the
    models and the trees that were there as they are. *)
Lemma AssertPluginSDF_returns ext _sdf w t :
  static_ok w ->
  element_at (heap w) _sdf = Some t ->
  exists w', AssertPluginSDF ext _sdf w = Done (tt, w')
             /\ models w' = models w
             /\ exists extra, heap w' = heap w ++ extra.
Proof.
  intros Hok Hp. destruct (fmt_seed_static w) as [p|] eqn:Hs.
  - destruct (Hok p Hs) as [seed Hseed].
    eexists. split; [apply (AssertPluginSDF_cached _ _ _ _ _ _ Hs Hseed Hp)|].
    split; [reflexivity|]. eexists. reflexivity.
  - eexists. split; [apply (AssertPluginSDF_first _ _ _ _ Hs Hp)|].
    split; [reflexivity|]. eexists. reflexivity.
Qed.

(** ** The loop budget is never used up *)

Lemma within_budget_ret {A} (a : A) : within_budget (ret a).
Proof. intros w H. discriminate H. Qed.

Lemma within_budget_bind {A B} (c : M A) (k : A -> M B) :
  within_budget c -> (forall a, within_budget (k a)) -> within_budget (bind c k).
Proof.
  intros Hc Hk w. unfold bind. pose proof (Hc w) as H.
  destruct (c w) as [[a w']|f]; [apply Hk|].
  intros [= ->]. apply H. reflexivity.
Qed.

Lemma within_budget_GZ_ASSERT b msg : within_budget (GZ_ASSERT b msg).
Proof. intros w. destruct b; discriminate. Qed.

Lemma within_budget_deref p : within_budget (deref p).
Proof. intros w. unfold deref. destruct (element_at (heap w) p); discriminate. Qed.

Lemma within_budget_GetJoint m name : within_budget (GetJoint m name).
Proof.
  intros w. unfold GetJoint. destruct m as [m|]; [|discriminate].
  destruct (models w !! m); discriminate.
Qed.

Lemma within_budget_GetType j : within_budget (GetType j).
Proof.
  intros w. unfold GetType. destruct j as [[m i]|]; [|discriminate].
  destruct (models w !! m) as [js|]; [|discriminate].
  destruct (js !! i); discriminate.
Qed.

Create HintDb budget.
#[local] Hint Resolve within_budget_ret within_budget_GZ_ASSERT
  within_budget_deref within_budget_GetJoint within_budget_GetType : budget.
#[local] Hint Extern 2 (within_budget (bind _ _)) =>
  apply within_budget_bind; [|intros ?] : budget.
#[local] Hint Extern 2 (within_budget (match ?x with _ => _ end)) =>
  destruct x : budget.
#[local] Hint Extern 1 (within_budget (fail _)) =>
  let w := fresh in intros w; discriminate : budget.

Lemma within_budget_segment_round ext m p tr :
  within_budget (segment_round ext m p tr).
Proof.
  unfold segment_round, GetElement, Get_string, Get_double.
  auto 30 with budget.
Qed.

Lemma within_budget_rounds {A} (body : ElementPtr -> A -> M A) ps :
  (forall p a, within_budget (body p a)) ->
  forall acc, within_budget (rounds body ps acc).
Proof.
  intros Hb. induction ps as [|p ps IH]; intros acc; simpl; auto with budget.
Qed.

(** The loops of [LoadTrajectory] and [LoadPattern] end within the budget
    the loaders give them, in every world and on every argument. *)
Lemma loops_within_budget ext m _sdf :
  within_budget (LoadTrajectory ext m _sdf)
  /\ within_budget (LoadPattern m _sdf).
Proof.
  split; intros w; destruct (element_at (heap w) _sdf) as [t|] eqn:Hp.
  - rewrite (LoadTrajectory_rounds _ _ _ _ _ Hp).
    apply within_budget_rounds. intros p a. apply within_budget_segment_round.
  - rewrite (LoadTrajectory_null _ _ _ _ Hp). discriminate.
  - rewrite (LoadPattern_run _ _ _ _ Hp). unfold pattern_of.
    destruct (child_value "elements_per_round" t) as [[|s|d|n]|]; try discriminate.
    destruct (N.ltb 0 n); discriminate.
  - rewrite (LoadPattern_null _ _ _ Hp). discriminate.
Qed.

(** * Main results *)

(** ** Sprocket extraction *)

(** C4.  [LoadSprocket] on a sprocket element whose [joint] child holds
    the name [name]: when no joint of the model has that name, the
    assertion "cannot find a joint" fails; when the joint found has not the
    hinge bit in its type, the assertion "must be a rotational joint"
    fails; when it has, the loader returns the handle of that joint
    together with the value of the [pitch_diameter] child, and the world is
    as before. *)
Theorem LoadSprocket_cases ext w m js _sdf e name :
  models w !! m = Some js ->
  element_at (heap w) _sdf = Some e ->
  child_value "joint" e = Some (VString name) ->
  (find_joint name js 0 = None ->
   LoadSprocket ext (Some m) _sdf w = Abort (AssertionFailed msg_sprocket_joint))
  /\ (forall i j,
        find_joint name js 0 = Some i -> js !! i = Some j ->
        (Z.land (joint_type j) (HINGE_JOINT ext) = 0%Z ->
         LoadSprocket ext (Some m) _sdf w
         = Abort (AssertionFailed msg_sprocket_kind))
        /\ (forall d,
              Z.land (joint_type j) (HINGE_JOINT ext) <> 0%Z ->
              child_value "pitch_diameter" e = Some (VDouble d) ->
              LoadSprocket ext (Some m) _sdf w
              = Done ({| sprocket_joint := Some (m, i); pitch_diameter := d |}, w))).
Proof.
  intros Hm Hp Hj. rewrite (LoadSprocket_run _ _ _ _ _ _ Hm Hp).
  unfold sprocket_of. rewrite Hj. split.
  - intros ->. reflexivity.
  - intros i j -> ->. split.
    + intros Hz. apply truthy_zero in Hz. rewrite Hz. reflexivity.
    + intros d Hz Hd. apply truthy_spec in Hz. rewrite Hz, Hd. reflexivity.
Qed.

Lemma LoadSprocket_cases_witness :
  LoadSprocket Sample.gazebo Sample.the_model (Some (0, [0]))
    (Sample.world_of (Sample.plugin 0.2))
  = Done ({| sprocket_joint := Some (0, 0); pitch_diameter := 0.2 |},
          Sample.world_of (Sample.plugin 0.2)).
Proof.
  refine (proj2 (proj2 (LoadSprocket_cases Sample.gazebo
                          (Sample.world_of (Sample.plugin 0.2)) 0 Sample.vehicle
                          (Some (0, [0])) (Sample.sprocket_elem "sprocket_axle" 0.2)
                          "sprocket_axle" _ _ _)
                  0 {| joint_name := "sprocket_axle"; joint_type := 0x240 |} _ _)
            0.2%float _ _);
    try reflexivity.
  vm_compute. discriminate.
Defined.

(** ** Trajectory extraction *)

(** [x <= 0.] excludes [0. < x], also for the two zeros and the
    infinities of binary64. *)
Lemma not_positive (d : float) :
  PrimFloat.leb d 0 = true -> PrimFloat.ltb 0 d = false.
Proof.
  rewrite leb_spec, ltb_spec.
  replace (Prim2SF 0) with (S754_zero false) by reflexivity.
  destruct (Prim2SF d) as [s|s| |s mant ex]; try destruct s; cbn; congruence.
Qed.

(** C5.  [LoadTrajectory] runs its loop body once on every child called
    [segment], in document order, and a round that fails is the failure of
    the whole.  A round on a segment whose [joint] child holds [name] fails
    the assertion "cannot find a joint" when no joint of the model has that
    name, fails the assertion "must be a rotational or translational joint"
    when the joint found has neither the hinge nor the slider bit, and
    fails the assertion "must be positive" when the [end_position] is at
    most 0; otherwise it appends the segment with that very
    [end_position].  For one segment with [end_position] 0.001 and a hinge
    or slider joint the load returns that segment, with 0.001 in it. *)
Theorem LoadTrajectory_cases ext w m js _sdf t :
  models w !! m = Some js ->
  element_at (heap w) _sdf = Some t ->
  LoadTrajectory ext (Some m) _sdf w
  = rounds (segment_round ext (Some m)) (children_ptrs "segment" _sdf t)
      {| segments := [] |} w
  /\ (forall before p after tr f,
        children_ptrs "segment" _sdf t = before ++ p :: after ->
        rounds (segment_round ext (Some m)) before {| segments := [] |} w
        = Done (tr, w) ->
        segment_round ext (Some m) p tr w = Abort f ->
        LoadTrajectory ext (Some m) _sdf w = Abort f)
  /\ (forall p c tr name,
        element_at (heap w) p = Some c ->
        child_value "joint" c = Some (VString name) ->
        (find_joint name js 0 = None ->
         segment_round ext (Some m) p tr w
         = Abort (AssertionFailed msg_segment_joint))
        /\ (forall i j,
              find_joint name js 0 = Some i -> js !! i = Some j ->
              (Z.land (joint_type j) (HINGE_JOINT ext) = 0%Z ->
               Z.land (joint_type j) (SLIDER_JOINT ext) = 0%Z ->
               segment_round ext (Some m) p tr w
               = Abort (AssertionFailed msg_segment_kind))
              /\ (forall d,
                    Z.land (joint_type j) (HINGE_JOINT ext) <> 0%Z
                    \/ Z.land (joint_type j) (SLIDER_JOINT ext) <> 0%Z ->
                    child_value "end_position" c = Some (VDouble d) ->
                    (PrimFloat.leb d 0 = true ->
                     segment_round ext (Some m) p tr w
                     = Abort (AssertionFailed msg_end_position))
                    /\ (PrimFloat.ltb 0 d = true ->
                        segment_round ext (Some m) p tr w
                        = Done ({| segments :=
                                     segments tr
                                     ++ [{| segment_joint := Some (m, i);
                                            end_position := d |}] |}, w)))))
  /\ (forall c name i j,
        children_named "segment" t = [c] ->
        child_value "joint" c = Some (VString name) ->
        find_joint name js 0 = Some i -> js !! i = Some j ->
        Z.land (joint_type j) (HINGE_JOINT ext) <> 0%Z
        \/ Z.land (joint_type j) (SLIDER_JOINT ext) <> 0%Z ->
        child_value "end_position" c = Some (VDouble 0.001) ->
        LoadTrajectory ext (Some m) _sdf w
        = Done ({| segments := [{| segment_joint := Some (m, i);
                                   end_position := 0.001 |}] |}, w)).
Proof.
  intros Hm Hp.
  assert (Hkind : forall j,
             Z.land (joint_type j) (HINGE_JOINT ext) <> 0%Z
             \/ Z.land (joint_type j) (SLIDER_JOINT ext) <> 0%Z ->
             truthy (Z.land (joint_type j) (HINGE_JOINT ext))
             || truthy (Z.land (joint_type j) (SLIDER_JOINT ext)) = true).
  { intros j [H|H]; apply truthy_spec in H; rewrite H;
      [reflexivity | apply orb_true_r]. }
  split; [apply LoadTrajectory_rounds, Hp|]. split; [|split].
  - intros before p after tr f Hsplit Hbefore Hround.
    rewrite (LoadTrajectory_rounds _ _ _ _ _ Hp), Hsplit, rounds_app.
    rewrite (bind_done _ _ _ _ _ Hbefore). simpl.
    apply bind_abort, Hround.
  - intros p c tr name Hc Hj.
    rewrite (segment_round_run _ _ _ _ _ _ tr Hm Hc).
    unfold segment_of. rewrite Hj. split; [intros ->; reflexivity|].
    intros i j -> ->. split.
    + intros Hh Hs. apply truthy_zero in Hh, Hs. rewrite Hh, Hs. reflexivity.
    + intros d Hk Hd. rewrite (Hkind _ Hk), Hd. split.
      * intros Hle. rewrite (not_positive _ Hle). reflexivity.
      * intros ->. reflexivity.
  - intros c name i j Hsegs Hj Hf Hi Hk Hd.
    rewrite (LoadTrajectory_run _ _ _ _ _ _ Hm Hp).
    unfold trajectory_of. rewrite Hsegs. simpl.
    unfold segment_of. rewrite Hj, Hf, Hi, (Hkind _ Hk), Hd. reflexivity.
Qed.

Lemma LoadTrajectory_cases_witness :
  LoadTrajectory Sample.gazebo Sample.the_model Sample.the_plugin
    (Sample.world_of short_trajectory)
  = Done ({| segments := [{| segment_joint := Some (0, 1);
                             end_position := 0.001 |}] |},
          Sample.world_of short_trajectory).
Proof.
  refine (proj2 (proj2 (proj2
            (LoadTrajectory_cases Sample.gazebo (Sample.world_of short_trajectory)
               0 Sample.vehicle Sample.the_plugin short_trajectory _ _)))
            (Sample.segment_elem "idler_slider" 0.001) "idler_slider" 1
            {| joint_name := "idler_slider"; joint_type := 0x440 |} _ _ _ _ _ _);
    try reflexivity.
  right. vm_compute. discriminate.
Defined.

(** ** Pattern extraction *)

Lemma length_fresh_ptrs base n : length (fresh_ptrs base n) = n.
Proof. revert base. induction n as [|n IH]; intros base; simpl; [|rewrite IH]; reflexivity. Qed.

(** C6.  [LoadPattern] fails the assertion "must be positive integer" when
    [elements_per_round] is 0.  When [elements_per_round] is 5 and the
    pattern has two [element] children of which the first has two
    [collision] and no [visual] children, it returns a pattern of 5
    elements per round with two elements, the first with two collision and
    no visual sdfs. *)
Theorem LoadPattern_cases _model _sdf w t :
  element_at (heap w) _sdf = Some t ->
  (child_value "elements_per_round" t = Some (VUInt 0) ->
   LoadPattern _model _sdf w
   = Abort (AssertionFailed msg_elements_per_round))
  /\ (forall e1 e2,
        child_value "elements_per_round" t = Some (VUInt 5) ->
        children_named "element" t = [e1; e2] ->
        length (children_named "collision" e1) = 2 ->
        length (children_named "visual" e1) = 0 ->
        exists pat w' first,
          LoadPattern _model _sdf w = Done (pat, w')
          /\ elements_per_round pat = 5%N
          /\ length (elements pat) = 2
          /\ elements pat !! 0 = Some first
          /\ length (collision_sdfs first) = 2
          /\ length (visual_sdfs first) = 0).
Proof.
  intros Hp. rewrite (LoadPattern_run _ _ _ _ Hp). unfold pattern_of. split.
  - intros ->. reflexivity.
  - intros e1 e2 -> Hes Hc Hv. simpl. rewrite Hes.
    eexists _, _, _. split; [reflexivity|]. simpl.
    split; [reflexivity|]. split; [reflexivity|]. split; [reflexivity|].
    simpl. rewrite !length_fresh_ptrs. auto.
Qed.

Lemma LoadPattern_cases_witness :
  exists pat w' first,
    LoadPattern Sample.the_model (Some (0, [2]))
      (Sample.world_of (Sample.plugin 0.2)) = Done (pat, w')
    /\ elements_per_round pat = 5%N
    /\ length (elements pat) = 2
    /\ elements pat !! 0 = Some first
    /\ length (collision_sdfs first) = 2
    /\ length (visual_sdfs first) = 0.
Proof.
  refine (proj2 (LoadPattern_cases Sample.the_model (Some (0, [2]))
                   (Sample.world_of (Sample.plugin 0.2)) Sample.pattern_elem _)
            (Elem "element" VEmpty [Sample.box; Sample.grouser])
            (Elem "element" VEmpty [Sample.skin; Sample.box]) _ _ _ _);
    reflexivity.
Defined.

(** ** Order and copies *)

Lemma fresh_ptrs_copies base0 h cs :
  forall pre post,
    h = pre ++ cs ++ post -> base0 <= length pre ->
    Forall2 (fresh_copy base0 h) (fresh_ptrs (length pre) (length cs)) cs.
Proof.
  induction cs as [|c cs IH]; intros pre post Hh Hb; simpl; constructor.
  - exists (length pre). split; [reflexivity|]. split; [exact Hb|].
    rewrite Hh, lookup_app_r by lia.
    replace (length pre - length pre) with 0 by lia. reflexivity.
  - replace (S (length pre)) with (length (pre ++ [c]))
      by (rewrite length_app; simpl; lia).
    apply (IH _ post).
    + rewrite Hh, <- app_assoc. reflexivity.
    + rewrite length_app. lia.
Qed.

Lemma layout_copies base0 h es :
  forall pre post,
    h = pre ++ clones_of es ++ post -> base0 <= length pre ->
    Forall2 (fun pe e =>
               Forall2 (fresh_copy base0 h) (collision_sdfs pe)
                 (children_named "collision" e)
               /\ Forall2 (fresh_copy base0 h) (visual_sdfs pe)
                    (children_named "visual" e))
      (layout (length pre) es) es.
Proof.
  induction es as [|e es IH]; intros pre post Hh Hb; simpl; constructor.
  - unfold clones_of in Hh. simpl in Hh. rewrite <- !app_assoc in Hh.
    simpl. split.
    + eapply fresh_ptrs_copies; [exact Hh | exact Hb].
    + replace (length pre + length (children_named "collision" e))
        with (length (pre ++ children_named "collision" e))
        by (rewrite length_app; reflexivity).
      eapply fresh_ptrs_copies.
      * rewrite Hh, <- app_assoc. reflexivity.
      * rewrite length_app. lia.
  - replace (length pre + length (children_named "collision" e)
             + length (children_named "visual" e))
      with (length (pre ++ children_named "collision" e
                    ++ children_named "visual" e))
      by (rewrite !length_app; lia).
    apply (IH _ post).
    + rewrite Hh. unfold clones_of. simpl. rewrite <- !app_assoc. reflexivity.
    + rewrite !length_app. lia.
Qed.

(** The copies of a successful [LoadPattern], pattern element by pattern
    element and sdf by sdf, against the children they were cloned from. *)
Lemma LoadPattern_copies _model _sdf w t pat w' :
  element_at (heap w) _sdf = Some t ->
  LoadPattern _model _sdf w = Done (pat, w') ->
  (exists cl, heap w' = heap w ++ cl)
  /\ Forall2 (fun pe e =>
                Forall2 (fresh_copy (length (heap w)) (heap w'))
                  (collision_sdfs pe) (children_named "collision" e)
                /\ Forall2 (fresh_copy (length (heap w)) (heap w'))
                     (visual_sdfs pe) (children_named "visual" e))
       (elements pat) (children_named "element" t).
Proof.
  intros Hp. rewrite (LoadPattern_run _ _ _ _ Hp). unfold pattern_of.
  destruct (child_value "elements_per_round" t) as [[|s|d|n]|]; try discriminate.
  destruct (N.ltb 0 n); [|discriminate].
  intros [= <- <-]. simpl. split; [eexists; reflexivity|].
  apply (layout_copies _ _ _ (heap w) []); [|lia].
  rewrite app_nil_r. reflexivity.
Qed.

Lemma fresh_copy_element_at base h q c :
  fresh_copy base h q c -> element_at h q = Some c.
Proof. intros (k & -> & _ & Hk). unfold element_at. rewrite Hk. reflexivity. Qed.

Lemma fresh_copy_isolated w w' q c :
  (exists cl, heap w' = heap w ++ cl) ->
  fresh_copy (length (heap w)) (heap w') q c ->
  isolated_copy w w' q c.
Proof.
  intros [cl Hcl] Hq. pose proof Hq as (k & -> & Hk & Hc).
  split; [eapply fresh_copy_element_at, Hq|]. split.
  - intros f [[r rp]|] e He; [|discriminate].
    pose proof (element_at_valid _ _ _ _ He) as Hr.
    unfold mutate. rewrite Hc.
    rewrite (element_at_root (heap w ++ cl)).
    + apply element_at_app, He.
    + rewrite Hcl. apply list_lookup_insert_ne. lia.
  - intros f [[r rp]|] [e He]; [|discriminate].
    pose proof (element_at_valid _ _ _ _ He) as Hr.
    unfold mutate. destruct (heap w' !! r) as [x|].
    + unfold element_at. rewrite list_lookup_insert_ne by lia.
      rewrite Hc. reflexivity.
    + unfold element_at. rewrite Hc. reflexivity.
Qed.

Lemma collect_Forall2 {A B} (f : A -> Outcome B) l bs :
  collect f l = Done bs -> Forall2 (fun b a => f a = Done b) bs l.
Proof.
  revert bs. induction l as [|a l IH]; intros bs; simpl.
  - intros [= <-]. constructor.
  - destruct (f a) as [b|] eqn:Hb; [|discriminate].
    destruct (collect f l) as [bs'|]; [|discriminate].
    intros [= <-]. constructor; [exact Hb | apply IH; reflexivity].
Qed.

Lemma segment_of_loaded ext js m c seg :
  segment_of ext js m c = Done seg -> segment_loaded_from js m seg c.
Proof.
  unfold segment_of, segment_loaded_from.
  destruct (child_value "joint" c) as [[|name|d|n]|] eqn:Hj; try discriminate.
  destruct (find_joint name js 0) as [i|] eqn:Hf; [|discriminate].
  destruct (js !! i) as [j|]; [|discriminate].
  destruct (_ || _); [|discriminate].
  destruct (child_value "end_position" c) as [[|s|d|n]|] eqn:Hd; try discriminate.
  destruct (PrimFloat.ltb 0 d); [|discriminate].
  intros [= <-]. exists name, i, d. repeat split; assumption || reflexivity.
Qed.

(** C7.  The segments of a loaded trajectory are, one for one and in the
    same order, the children called [segment] of the trajectory element in
    document order; the elements of a loaded pattern are, one for one and in
    the same order, its children called [element], and the collision and
    visual sdfs of each point, in the same order, to the trees of its
    children called [collision] and [visual]. *)
Theorem order_is_document_order ext w m js :
  models w !! m = Some js ->
  (forall _sdf t tr w',
     element_at (heap w) _sdf = Some t ->
     LoadTrajectory ext (Some m) _sdf w = Done (tr, w') ->
     Forall2 (segment_loaded_from js m) (segments tr) (children_named "segment" t))
  /\ (forall _model _sdf t pat w',
        element_at (heap w) _sdf = Some t ->
        LoadPattern _model _sdf w = Done (pat, w') ->
        Forall2 (fun pe e =>
                   element_at (heap w') <$> collision_sdfs pe
                   = Some <$> children_named "collision" e
                   /\ element_at (heap w') <$> visual_sdfs pe
                      = Some <$> children_named "visual" e)
          (elements pat) (children_named "element" t)).
Proof.
  intros Hm. split.
  - intros _sdf t tr w' Hp. rewrite (LoadTrajectory_run _ _ _ _ _ _ Hm Hp).
    unfold trajectory_of.
    destruct (collect _ _) as [l|] eqn:Hl; [|discriminate].
    intros [= <- _]. simpl. apply collect_Forall2 in Hl.
    eapply Forall2_impl; [exact Hl|]. intros seg c. apply segment_of_loaded.
  - intros _model _sdf t pat w' Hp Hload.
    destruct (LoadPattern_copies _ _ _ _ _ _ Hp Hload) as [_ Hall].
    eapply Forall2_impl; [exact Hall|]. intros pe e [Hc Hv].
    assert (Hmap : forall qs cs,
               Forall2 (fresh_copy (length (heap w)) (heap w')) qs cs ->
               element_at (heap w') <$> qs = Some <$> cs).
    { intros qs cs H. induction H as [|q c qs cs Hq _ IH]; simpl; [reflexivity|].
      rewrite (fresh_copy_element_at _ _ _ _ Hq). f_equal. exact IH. }
    split; apply Hmap; assumption.
Qed.

Lemma order_is_document_order_witness :
  Forall2 (segment_loaded_from Sample.vehicle 0)
    [ {| segment_joint := Some (0, 0); end_position := 0.001 |};
      {| segment_joint := Some (0, 1); end_position := 1.5 |} ]
    (children_named "segment" Sample.trajectory_elem).
Proof.
  refine (proj1 (order_is_document_order Sample.gazebo
                   (Sample.world_of (Sample.plugin 0.2)) 0 Sample.vehicle _)
            (Some (0, [1])) Sample.trajectory_elem
            {| segments := [ {| segment_joint := Some (0, 0); end_position := 0.001 |};
                             {| segment_joint := Some (0, 1); end_position := 1.5 |} ] |}
            (Sample.world_of (Sample.plugin 0.2)) _ _);
    reflexivity.
Defined.

(** C8.  After a successful [LoadPattern], every collision and visual sdf
    of every pattern element is a deep copy of the child it was cloned
    from: the tree behind the stored pointer equals that child; a change
    made through the stored pointer is seen through no pointer of the world
    the loader started in, the source included; and a change made through
    any pointer of that world is not seen through the stored pointer. *)
Theorem clones_are_isolated _model _sdf w t pat w' :
  element_at (heap w) _sdf = Some t ->
  LoadPattern _model _sdf w = Done (pat, w') ->
  Forall2 (fun pe e =>
             Forall2 (isolated_copy w w') (collision_sdfs pe)
               (children_named "collision" e)
             /\ Forall2 (isolated_copy w w') (visual_sdfs pe)
                  (children_named "visual" e))
    (elements pat) (children_named "element" t).
Proof.
  intros Hp Hload.
  destruct (LoadPattern_copies _ _ _ _ _ _ Hp Hload) as [Hcl Hall].
  eapply Forall2_impl; [exact Hall|]. intros pe e [Hc Hv].
  split; (eapply Forall2_impl; [eassumption|]);
    intros q c; apply fresh_copy_isolated; exact Hcl.
Qed.

Lemma clones_are_isolated_witness :
  Forall2 (fun pe e =>
             Forall2 (isolated_copy (Sample.world_of (Sample.plugin 0.2))
                        (set_heap [Sample.plugin 0.2; Sample.box; Sample.grouser;
                                   Sample.box; Sample.skin]
                           (Sample.world_of (Sample.plugin 0.2))))
               (collision_sdfs pe) (children_named "collision" e)
             /\ Forall2 (isolated_copy (Sample.world_of (Sample.plugin 0.2))
                           (set_heap [Sample.plugin 0.2; Sample.box; Sample.grouser;
                                      Sample.box; Sample.skin]
                              (Sample.world_of (Sample.plugin 0.2))))
                  (visual_sdfs pe) (children_named "visual" e))
    [ {| collision_sdfs := [Some (1, []); Some (2, [])]; visual_sdfs := [] |};
      {| collision_sdfs := [Some (3, [])]; visual_sdfs := [Some (4, [])] |} ]
    (children_named "element" Sample.pattern_elem).
Proof.
  refine (clones_are_isolated Sample.the_model (Some (0, [2]))
            (Sample.world_of (Sample.plugin 0.2)) Sample.pattern_elem
            {| elements_per_round := 5;
               elements :=
                 [ {| collision_sdfs := [Some (1, []); Some (2, [])];
                      visual_sdfs := [] |};
                   {| collision_sdfs := [Some (3, [])];
                      visual_sdfs := [Some (4, [])] |} ] |}
            _ _ _);
    reflexivity.
Defined.

(** ** Side effects *)

(** C9.  A run of [LoadSprocket] or of [LoadTrajectory] that returns
    leaves the whole world as it was; a run of [LoadPattern] that returns
    leaves the models as they were and every element that a pointer
    designated before is still designated by it, unchanged (the heap has
    only grown by the clones).  A run that does not return stops the
    process and leaves no world. *)
Theorem loaders_have_no_side_effect ext _model _sdf w :
  (forall s w', LoadSprocket ext _model _sdf w = Done (s, w') -> w' = w)
  /\ (forall tr w', LoadTrajectory ext _model _sdf w = Done (tr, w') -> w' = w)
  /\ (forall pat w',
        LoadPattern _model _sdf w = Done (pat, w') ->
        models w' = models w
        /\ (forall p e, element_at (heap w) p = Some e ->
                        element_at (heap w') p = Some e)).
Proof.
  split; [|split].
  - intros s w'. apply read_only_LoadSprocket.
  - intros tr w'. apply read_only_LoadTrajectory.
  - intros pat w' H. apply allocates_only_LoadPattern in H.
    split; [apply H|]. intros p e. apply grows_element_at, H.
Qed.

Lemma loaders_have_no_side_effect_witness :
  models (set_heap [Sample.plugin 0.2; Sample.box; Sample.grouser;
                    Sample.box; Sample.skin]
            (Sample.world_of (Sample.plugin 0.2)))
  = models (Sample.world_of (Sample.plugin 0.2))
  /\ (forall p e,
        element_at (heap (Sample.world_of (Sample.plugin 0.2))) p = Some e ->
        element_at (heap (set_heap [Sample.plugin 0.2; Sample.box; Sample.grouser;
                                    Sample.box; Sample.skin]
                            (Sample.world_of (Sample.plugin 0.2)))) p = Some e).
Proof.
  refine (proj2 (proj2 (loaders_have_no_side_effect Sample.gazebo Sample.the_model
                          (Some (0, [2])) (Sample.world_of (Sample.plugin 0.2))))
            {| elements_per_round := 5;
               elements :=
                 [ {| collision_sdfs := [Some (1, []); Some (2, [])];
                      visual_sdfs := [] |};
                   {| collision_sdfs := [Some (3, [])];
                      visual_sdfs := [Some (4, [])] |} ] |}
            _ _).
  reflexivity.
Defined.

(** ** The model argument of the pattern loader *)

(** C10.  [LoadPattern] does not read its model argument, nor the models
    of the world: for any two model pointers, and any two worlds with the
    same heap, it returns the same pattern or fails in the same way. *)
Theorem LoadPattern_ignores_model (m1 m2 : ModelPtr) (_sdf : ElementPtr)
  (w1 w2 : World) :
  (LoadPattern m1 _sdf w1 = LoadPattern m2 _sdf w1)
  /\ (heap w1 = heap w2 ->
      value_of (LoadPattern m1 _sdf w1) = value_of (LoadPattern m2 _sdf w2)).
Proof.
  split; [reflexivity|]. intros Hh.
  destruct (element_at (heap w1) _sdf) as [t|] eqn:Hp.
  - rewrite (LoadPattern_run m1 _ _ _ Hp).
    rewrite Hh in Hp. rewrite (LoadPattern_run m2 _ _ _ Hp), Hh.
    destruct (pattern_of (length (heap w2)) t); reflexivity.
  - rewrite (LoadPattern_null _ _ _ Hp).
    rewrite Hh in Hp. rewrite (LoadPattern_null _ _ _ Hp). reflexivity.
Qed.

Lemma LoadPattern_ignores_model_witness :
  value_of (LoadPattern (Some 0) (Some (0, [2]))
              (Sample.world_of (Sample.plugin 0.2)))
  = value_of (LoadPattern None (Some (0, [2]))
                {| models := []; heap := [Sample.plugin 0.2];
                   fmt_seed_static := None |}).
Proof.
  refine (proj2 (LoadPattern_ignores_model (Some 0) None (Some (0, [2]))
                   (Sample.world_of (Sample.plugin 0.2))
                   {| models := []; heap := [Sample.plugin 0.2];
                      fmt_seed_static := None |}) _).
  reflexivity.
Defined.

(** ** The constructor as a whole *)

(** The constructor returns what the loaders make of the tree of the
    caller; of [AssertPluginSDF] only the number of roots it allocated is
    left in the result. *)
Lemma ContinuousTrackProperties_run ext w m js _sdf t :
  static_ok w ->
  models w !! m = Some js ->
  element_at (heap w) _sdf = Some t ->
  value_of (ContinuousTrackProperties ext (Some m) _sdf w)
  = properties_of ext js m (length (heap w) + check_roots w) t.
Proof.
  intros Hok Hm Hp. rewrite ContinuousTrackProperties_unfold.
  assert (Hrun : exists w1,
             AssertPluginSDF ext _sdf w = Done (tt, w1)
             /\ models w1 = models w
             /\ length (heap w1) = length (heap w) + check_roots w
             /\ element_at (heap w1) _sdf = Some t).
  { unfold check_roots. destruct (fmt_seed_static w) as [p|] eqn:Hs.
    - destruct (Hok p Hs) as [seed Hseed]. eexists.
      split; [apply (AssertPluginSDF_cached _ _ _ _ _ _ Hs Hseed Hp)|].
      split; [reflexivity|]. simpl heap. rewrite length_app.
      split; [reflexivity | apply element_at_app, Hp].
    - eexists. split; [apply (AssertPluginSDF_first _ _ _ _ Hs Hp)|].
      split; [reflexivity|]. simpl heap. rewrite length_app.
      split; [reflexivity | apply element_at_app, Hp]. }
  destruct Hrun as (w1 & Hcheck & Hm1 & Hlen & Hp1).
  rewrite (bind_done _ _ _ _ _ Hcheck).
  rewrite <- Hm1 in Hm. rewrite (run_loaders_run _ _ _ _ _ _ Hm Hp1), Hlen.
  destruct (properties_of ext js m (length (heap w) + check_roots w) t);
    reflexivity.
Qed.

Lemma properties_of_bits ext ext' js m base t :
  HINGE_JOINT ext' = HINGE_JOINT ext ->
  SLIDER_JOINT ext' = SLIDER_JOINT ext ->
  properties_of ext' js m base t = properties_of ext js m base t.
Proof.
  intros Hh Hs.
  unfold properties_of, sprocket_of, trajectory_of, segment_of.
  rewrite Hh, Hs. reflexivity.
Qed.

Lemma first_child_head tag e :
  first_child tag e = head (children_named tag e).
Proof.
  unfold first_child, children_named.
  rewrite <- (named_filter tag (children e) 0), find_child_named.
  destruct (named tag (children e) 0) as [|[i c] l] eqn:Hn; [reflexivity|].
  simpl. assert (Hin : (i, c) ∈ named tag (children e) 0) by (rewrite Hn; left).
  apply named_lookup in Hin as (_ & Hl & _).
  replace (i - 0) with i in Hl by lia. exact Hl.
Qed.

Lemma child_value_first tag e :
  child_value tag e = GetValue <$> first_child tag e.
Proof.
  unfold child_value, first_child.
  destruct (find_child tag (children e) 0); reflexivity.
Qed.

Lemma required_one_first tag check e :
  Spec.required_one tag check e = true ->
  exists c, first_child tag e = Some c /\ check c = true.
Proof.
  unfold Spec.required_one. rewrite first_child_head.
  destruct (children_named tag e) as [|c [|c' l]]; try discriminate.
  intros H. exists c. split; [reflexivity | exact H].
Qed.

Lemma conforming_sprocket ext js m e :
  Spec.conforms_sprocket e = true ->
  result_or_assertion (sprocket_of ext js m e).
Proof.
  unfold Spec.conforms_sprocket. intros H. apply andb_prop in H as [Hj Hd].
  apply required_one_first in Hj as (cj & Hcj & Hsj).
  apply required_one_first in Hd as (cd & Hcd & Hsd).
  unfold sprocket_of. rewrite !child_value_first, Hcj, Hcd. simpl.
  unfold Spec.has_string in Hsj. unfold Spec.has_double in Hsd.
  destruct (GetValue cj) as [|name|d|n]; try discriminate.
  destruct (find_joint name js 0) as [i|] eqn:Hf; [|exact I].
  apply find_joint_lookup in Hf as (_ & j & Hj & _).
  replace (i - 0) with i in Hj by lia. rewrite Hj.
  destruct (truthy _); [|exact I].
  destruct (GetValue cd); try discriminate. exact I.
Qed.

Lemma conforming_segment ext js m c :
  Spec.conforms_segment c = true ->
  result_or_assertion (segment_of ext js m c).
Proof.
  unfold Spec.conforms_segment. intros H. apply andb_prop in H as [Hj Hd].
  apply required_one_first in Hj as (cj & Hcj & Hsj).
  apply required_one_first in Hd as (cd & Hcd & Hsd).
  unfold segment_of. rewrite !child_value_first, Hcj, Hcd. simpl.
  unfold Spec.has_string in Hsj. unfold Spec.has_double in Hsd.
  destruct (GetValue cj) as [|name|d|n]; try discriminate.
  destruct (find_joint name js 0) as [i|] eqn:Hf; [|exact I].
  apply find_joint_lookup in Hf as (_ & j & Hj & _).
  replace (i - 0) with i in Hj by lia. rewrite Hj.
  destruct (_ || _); [|exact I].
  destruct (GetValue cd) as [|s|d|n]; try discriminate.
  destruct (PrimFloat.ltb 0 d); exact I.
Qed.

Lemma conforming_trajectory ext js m t :
  Spec.conforms_trajectory t = true ->
  result_or_assertion (trajectory_of ext js m t).
Proof.
  unfold Spec.conforms_trajectory, Spec.required_some, trajectory_of.
  intros H.
  assert (Hall : forallb Spec.conforms_segment (children_named "segment" t) = true)
    by (destruct (children_named "segment" t); [discriminate | exact H]).
  clear H. induction (children_named "segment" t) as [|c cs IH]; simpl; [exact I|].
  simpl in Hall. apply andb_prop in Hall as [Hc Hcs].
  pose proof (conforming_segment ext js m c Hc) as Hseg.
  destruct (segment_of ext js m c) as [s|f]; [|exact Hseg].
  specialize (IH Hcs).
  destruct (collect (segment_of ext js m) cs) as [l|f]; [exact I | exact IH].
Qed.

Lemma conforming_pattern base t :
  Spec.conforms_pattern t = true ->
  result_or_assertion (pattern_of base t).
Proof.
  unfold Spec.conforms_pattern. intros H. apply andb_prop in H as [Hn _].
  apply required_one_first in Hn as (cn & Hcn & Hsn).
  unfold pattern_of. rewrite child_value_first, Hcn. simpl.
  unfold Spec.has_uint in Hsn.
  destruct (GetValue cn) as [|s|d|n]; try discriminate.
  destruct (N.ltb 0 n); exact I.
Qed.

Lemma conforming_properties ext js m base t :
  Spec.conforms t = true ->
  result_or_assertion (properties_of ext js m base t).
Proof.
  unfold Spec.conforms. intros H.
  apply andb_prop in H as [H Hpat]. apply andb_prop in H as [Hspr Htra].
  apply required_one_first in Hspr as (es & Hes & Hs).
  apply required_one_first in Htra as (et & Het & Ht).
  apply required_one_first in Hpat as (ep & Hep & Hp).
  unfold properties_of. rewrite Hes, Het, Hep.
  pose proof (conforming_sprocket ext js m es Hs) as H1.
  destruct (sprocket_of ext js m es); [|exact H1].
  pose proof (conforming_trajectory ext js m et Ht) as H2.
  destruct (trajectory_of ext js m et); [|exact H2].
  pose proof (conforming_pattern base ep Hp) as H3.
  destruct (pattern_of base ep); [exact I | exact H3].
Qed.

(** C1, at a plugin element that does not conform to the format (the
    sprocket has a second, ill-typed [pitch_diameter]) and with a parser
    that rejects it: the specification's construction stops with a schema
    violation and runs no loader; the constructor of the header goes on,
    runs the three loaders and returns fully populated properties. *)
Theorem verdict_of_parser_is_dropped :
  Spec.conforms Sample.plugin_ill_typed = false
  /\ (validation Sample.rejecting (seed_content Sample.rejecting)
        Sample.plugin_ill_typed).1 = false
  /\ value_of (Spec.BuildProperties Sample.rejecting Sample.the_model
                 Sample.the_plugin (Sample.world_of Sample.plugin_ill_typed))
     = Abort SchemaViolation
  /\ value_of (ContinuousTrackProperties Sample.rejecting Sample.the_model
                 Sample.the_plugin (Sample.world_of Sample.plugin_ill_typed))
     = Done {| sprocket := {| sprocket_joint := Some (0, 0); pitch_diameter := 0.2 |};
               trajectory :=
                 {| segments :=
                      [ {| segment_joint := Some (0, 0); end_position := 0.001 |};
                        {| segment_joint := Some (0, 1); end_position := 1.5 |} ] |};
               pattern :=
                 {| elements_per_round := 5;
                    elements :=
                      [ {| collision_sdfs := [Some (3, []); Some (4, [])];
                           visual_sdfs := [] |};
                        {| collision_sdfs := [Some (5, [])];
                           visual_sdfs := [Some (6, [])] |} ] |} |}.
Proof. repeat split; vm_compute; reflexivity. Qed.

(** The same for every plugin element and every parser that rejects it:
    the constructor returns what the loaders make of the element. *)
Lemma rejected_plugin_is_loaded ext w m js _sdf t :
  static_ok w ->
  models w !! m = Some js ->
  element_at (heap w) _sdf = Some t ->
  (forall fmt, (validation ext fmt t).1 = false) ->
  value_of (ContinuousTrackProperties ext (Some m) _sdf w)
  = properties_of ext js m (length (heap w) + check_roots w) t.
Proof. intros Hok Hm Hp _. apply ContinuousTrackProperties_run; assumption. Qed.

(** C2, as stated, fails: with a parser that leaves the tree
    [Sample.plugin 0.4] in the format copy, the specification's
    construction, which loads from the validated tree, returns a pitch
    diameter of 0.4; the constructor of the header returns the 0.2 of the
    tree of the caller. *)
Lemma validated_tree_is_not_consumed :
  Spec.conforms (Sample.plugin 0.2) = true
  /\ (exists v w1,
        Spec.Validate Sample.stub Sample.the_plugin
          (Sample.world_of (Sample.plugin 0.2)) = Done (v, w1)
        /\ Spec.conforms <$> element_at (heap w1) v = Some true)
  /\ value_of (ContinuousTrackProperties Sample.stub Sample.the_model
                 Sample.the_plugin (Sample.world_of (Sample.plugin 0.2)))
     <> value_of (Spec.BuildProperties Sample.stub Sample.the_model
                    Sample.the_plugin (Sample.world_of (Sample.plugin 0.2))).
Proof.
  split; [vm_compute; reflexivity|]. split.
  - eexists _, _. split; vm_compute; reflexivity.
  - intros H.
    apply (f_equal (fun o => match o with
                             | Done p => PrimFloat.eqb (pitch_diameter (sprocket p)) 0.2
                             | Abort _ => false
                             end)) in H.
    vm_compute in H. discriminate H.
Qed.

(** C2, amended.  For a plugin element that conforms to the format,
    [AssertPluginSDF] returns, and returns no tree; the properties the
    constructor returns are the same whatever [initFile], [readString] and
    [ToString] do, so they are read from the tree of the caller; and since
    that tree conforms, the construction ends with properties or with a
    failed assertion of a loader, never on a missing element or a value of
    the wrong type. *)
Theorem loaders_read_the_tree_of_the_caller ext w m js _sdf t :
  static_ok w ->
  models w !! m = Some js ->
  element_at (heap w) _sdf = Some t ->
  Spec.conforms t = true ->
  (exists w', AssertPluginSDF ext _sdf w = Done (tt, w'))
  /\ (forall ext',
        HINGE_JOINT ext' = HINGE_JOINT ext ->
        SLIDER_JOINT ext' = SLIDER_JOINT ext ->
        value_of (ContinuousTrackProperties ext' (Some m) _sdf w)
        = value_of (ContinuousTrackProperties ext (Some m) _sdf w))
  /\ result_or_assertion (value_of (ContinuousTrackProperties ext (Some m) _sdf w)).
Proof.
  intros Hok Hm Hp Hc. split; [|split].
  - destruct (AssertPluginSDF_returns ext _ _ _ Hok Hp) as (w' & H & _).
    exists w'. exact H.
  - intros ext' Hh Hs.
    rewrite !(ContinuousTrackProperties_run _ _ _ _ _ _ Hok Hm Hp).
    apply properties_of_bits; assumption.
  - rewrite (ContinuousTrackProperties_run _ _ _ _ _ _ Hok Hm Hp).
    apply conforming_properties, Hc.
Qed.

Lemma loaders_read_the_tree_of_the_caller_witness :
  value_of (ContinuousTrackProperties Sample.stub (Some 0) Sample.the_plugin
              (Sample.world_of (Sample.plugin 0.2)))
  = value_of (ContinuousTrackProperties Sample.gazebo (Some 0) Sample.the_plugin
                (Sample.world_of (Sample.plugin 0.2))).
Proof.
  refine (proj1 (proj2 (loaders_read_the_tree_of_the_caller Sample.gazebo
                          (Sample.world_of (Sample.plugin 0.2)) 0 Sample.vehicle
                          Sample.the_plugin (Sample.plugin 0.2) _ _ _ _))
            Sample.stub _ _);
    try reflexivity.
  intros p H. discriminate H.
Defined.

(** C3, at a plugin element that conforms to the format and gives the
    sprocket a pitch diameter of -1: the construction returns, and the
    sprocket has that pitch diameter, which is not positive. *)
Theorem pitch_diameter_is_not_checked :
  Spec.conforms (Sample.plugin (-1)) = true
  /\ value_of (ContinuousTrackProperties Sample.gazebo Sample.the_model
                 Sample.the_plugin (Sample.world_of (Sample.plugin (-1))))
     = Done {| sprocket := {| sprocket_joint := Some (0, 0); pitch_diameter := -1 |};
               trajectory :=
                 {| segments :=
                      [ {| segment_joint := Some (0, 0); end_position := 0.001 |};
                        {| segment_joint := Some (0, 1); end_position := 1.5 |} ] |};
               pattern :=
                 {| elements_per_round := 5;
                    elements :=
                      [ {| collision_sdfs := [Some (3, []); Some (4, [])];
                           visual_sdfs := [] |};
                        {| collision_sdfs := [Some (5, [])];
                           visual_sdfs := [Some (6, [])] |} ] |} |}
  /\ PrimFloat.ltb 0 (-1) = false.
Proof. repeat split; vm_compute; reflexivity. Qed.

(** * Further properties of the header *)

(** ** The format seed *)

Lemma seed_kept_static_ok ext w : seed_kept ext w -> static_ok w.
Proof.
  unfold seed_kept, static_ok. intros H p Hp. rewrite Hp in H.
  rewrite H. eexists. reflexivity.
Qed.

(** What a call of [AssertPluginSDF] leaves behind, in both cases of the
    [static]. *)
Lemma AssertPluginSDF_world ext _sdf w t :
  seed_kept ext w ->
  element_at (heap w) _sdf = Some t ->
  exists w' p,
    AssertPluginSDF ext _sdf w = Done (tt, w')
    /\ models w' = models w
    /\ fmt_seed_static w' = Some p
    /\ (forall q, fmt_seed_static w = Some q -> p = q)
    /\ element_at (heap w') p = Some (seed_content ext)
    /\ (exists pre,
          length pre + 1 = check_roots w
          /\ heap w' = heap w ++ pre
                       ++ [(validation ext (seed_content ext) t).2]).
Proof.
  intros Hk Hp. unfold seed_kept, check_roots in *.
  destruct (fmt_seed_static w) as [p|] eqn:Hs.
  - exists (set_heap (heap w ++ [(validation ext (seed_content ext) t).2]) w), p.
    split; [apply (AssertPluginSDF_cached _ _ _ _ _ _ Hs Hk Hp)|].
    split; [reflexivity|]. split; [exact Hs|].
    split; [intros q [= ->]; reflexivity|].
    split; [simpl heap; apply element_at_app, Hk|].
    exists []. split; reflexivity.
  - eexists _, (Some (length (heap w), [])).
    split; [apply (AssertPluginSDF_first _ _ _ _ Hs Hp)|].
    split; [reflexivity|]. split; [reflexivity|].
    split; [intros q Hq; discriminate Hq|]. split.
    + simpl heap.
      change (heap w ++ [seed_content ext; (validation ext (seed_content ext) t).2])
        with (heap w ++ [seed_content ext]
              ++ [(validation ext (seed_content ext) t).2]).
      rewrite app_assoc. apply element_at_app, element_at_last.
    + exists [seed_content ext]. split; reflexivity.
Qed.

(** X1.  The format seed is initialised once and never written to: after
    a call of [AssertPluginSDF] the [static] is set, it is the pointer that
    was there if there was one, and the element behind it is still the
    format as [sdf::initFile] left it; the parser was given a copy of that
    format, and what it made of the copy is the last tree of the heap. *)
Theorem format_seed_is_kept ext _sdf w t :
  seed_kept ext w ->
  element_at (heap w) _sdf = Some t ->
  exists w' p,
    AssertPluginSDF ext _sdf w = Done (tt, w')
    /\ fmt_seed_static w' = Some p
    /\ (forall q, fmt_seed_static w = Some q -> p = q)
    /\ seed_kept ext w'
    /\ last (heap w') = Some (validation ext (seed_content ext) t).2.
Proof.
  intros Hk Hp.
  destruct (AssertPluginSDF_world ext _ _ _ Hk Hp)
    as (w' & p & Hrun & _ & Hs & Hsame & Hseed & pre & _ & Hheap).
  exists w', p. split; [exact Hrun|]. split; [exact Hs|]. split; [exact Hsame|].
  split.
  - unfold seed_kept. rewrite Hs. exact Hseed.
  - rewrite Hheap, app_assoc. apply last_snoc.
Qed.

Lemma format_seed_is_kept_witness :
  exists w' p,
    AssertPluginSDF Sample.stub Sample.the_plugin
      (Sample.world_of (Sample.plugin 0.2)) = Done (tt, w')
    /\ fmt_seed_static w' = Some p
    /\ (forall q, fmt_seed_static (Sample.world_of (Sample.plugin 0.2)) = Some q
                  -> p = q)
    /\ seed_kept Sample.stub w'
    /\ last (heap w')
       = Some (validation Sample.stub (seed_content Sample.stub)
                 (Sample.plugin 0.2)).2.
Proof.
  refine (format_seed_is_kept Sample.stub Sample.the_plugin
            (Sample.world_of (Sample.plugin 0.2)) (Sample.plugin 0.2) _ _).
  - exact I.
  - reflexivity.
Defined.

(** ** What a construction changes *)

Lemma allocates_only_run_loaders ext m tree : allocates_only (run_loaders ext m tree).
Proof.
  unfold run_loaders.
  apply allocates_only_bind;
    [apply read_only_allocates_only, read_only_GetElement|]. intros ps.
  apply allocates_only_bind;
    [apply read_only_allocates_only, read_only_LoadSprocket|]. intros s.
  apply allocates_only_bind;
    [apply read_only_allocates_only, read_only_GetElement|]. intros pt.
  apply allocates_only_bind;
    [apply read_only_allocates_only, read_only_LoadTrajectory|]. intros tr.
  apply allocates_only_bind;
    [apply read_only_allocates_only, read_only_GetElement|]. intros pp.
  apply allocates_only_bind; [apply allocates_only_LoadPattern|]. intros pat.
  apply read_only_allocates_only, read_only_ret.
Qed.

(** X2.  A construction that returns has only allocated: the models are
    as they were, the heap is the old heap followed by new trees, and
    every element that a pointer designated before, the plugin element of
    the caller included, is still designated by it, unchanged. *)
Theorem construction_only_allocates ext _model _sdf w t props w' :
  static_ok w ->
  element_at (heap w) _sdf = Some t ->
  ContinuousTrackProperties ext _model _sdf w = Done (props, w') ->
  models w' = models w
  /\ (exists new, heap w' = heap w ++ new)
  /\ (forall p e, element_at (heap w) p = Some e ->
                  element_at (heap w') p = Some e).
Proof.
  intros Hok Hp. rewrite ContinuousTrackProperties_unfold.
  destruct (AssertPluginSDF_returns ext _ _ _ Hok Hp) as (w1 & Hrun & Hm & new1 & Hh).
  rewrite (bind_done _ _ _ _ _ Hrun). intros Hload.
  apply allocates_only_run_loaders in Hload as (Hm' & _ & new2 & Hh').
  assert (Hheap : heap w' = heap w ++ new1 ++ new2)
    by (rewrite Hh', Hh, app_assoc; reflexivity).
  split; [congruence|]. split; [eexists; exact Hheap|].
  intros p e He. rewrite Hheap. apply element_at_app, He.
Qed.

Lemma construction_only_allocates_witness :
  models loaded_world = models (Sample.world_of (Sample.plugin 0.2))
  /\ (exists new, heap loaded_world
                  = heap (Sample.world_of (Sample.plugin 0.2)) ++ new)
  /\ (forall p e,
        element_at (heap (Sample.world_of (Sample.plugin 0.2))) p = Some e ->
        element_at (heap loaded_world) p = Some e).
Proof.
  refine (construction_only_allocates Sample.gazebo Sample.the_model
            Sample.the_plugin (Sample.world_of (Sample.plugin 0.2))
            (Sample.plugin 0.2) loaded_properties loaded_world _ _ _).
  - intros p H. discriminate H.
  - reflexivity.
  - vm_compute. reflexivity.
Defined.

(** ** The order of the loaders *)

Lemma layout_same_shape b1 b2 es :
  Forall2 same_shape (layout b1 es) (layout b2 es).
Proof.
  revert b1 b2. induction es as [|e es IH]; intros b1 b2; simpl; constructor.
  - split; simpl; rewrite !length_fresh_ptrs; reflexivity.
  - apply IH.
Qed.

Lemma pattern_of_base b1 b2 t :
  match pattern_of b1 t, pattern_of b2 t with
  | Done p1, Done p2 =>
      elements_per_round p2 = elements_per_round p1
      /\ Forall2 same_shape (elements p1) (elements p2)
  | Abort f1, Abort f2 => f1 = f2
  | _, _ => False
  end.
Proof.
  unfold pattern_of.
  destruct (child_value "elements_per_round" t) as [[|s|d|n]|]; try reflexivity.
  destruct (N.ltb 0 n); [|reflexivity].
  split; [reflexivity | apply layout_same_shape].
Qed.

Lemma GetElement_points ext_tag _sdf w t p :
  element_at (heap w) _sdf = Some t ->
  GetElement _sdf ext_tag w = Done (p, w) ->
  element_at (heap w) p = first_child ext_tag t.
Proof.
  intros Hp Hg. destruct (GetElement_first_child _ ext_tag _ _ Hp) as (c & Hc & He).
  rewrite Hc in Hg. injection Hg as <-. exact He.
Qed.

(** X3.  The constructor runs the loaders in the order sprocket,
    trajectory, pattern on the children of the plugin element, and the
    format check before them changes nothing for them: when
    [LoadSprocket] would fail on the sprocket child the construction fails
    in that way; when it returns and [LoadTrajectory] would fail on the
    trajectory child the construction fails in that way; when both return
    and [LoadPattern] would fail on the pattern child the construction fails
    in that way; and when the three return, the construction returns their
    sprocket and trajectory and a pattern of the same count and shape
    (its clones are allocated after the trees of the format check). *)
Theorem first_failure_stops_construction ext w m js _sdf t ps pt pp :
  static_ok w ->
  models w !! m = Some js ->
  element_at (heap w) _sdf = Some t ->
  GetElement _sdf "sprocket" w = Done (ps, w) ->
  GetElement _sdf "trajectory" w = Done (pt, w) ->
  GetElement _sdf "pattern" w = Done (pp, w) ->
  match LoadSprocket ext (Some m) ps w with
  | Abort f =>
      value_of (ContinuousTrackProperties ext (Some m) _sdf w) = Abort f
  | Done (s, _) =>
      match LoadTrajectory ext (Some m) pt w with
      | Abort f =>
          value_of (ContinuousTrackProperties ext (Some m) _sdf w) = Abort f
      | Done (tr, _) =>
          match LoadPattern (Some m) pp w with
          | Abort f =>
              value_of (ContinuousTrackProperties ext (Some m) _sdf w) = Abort f
          | Done (pat, _) =>
              exists pat',
                value_of (ContinuousTrackProperties ext (Some m) _sdf w)
                = Done {| sprocket := s; trajectory := tr; pattern := pat' |}
                /\ elements_per_round pat' = elements_per_round pat
                /\ Forall2 same_shape (elements pat) (elements pat')
          end
      end
  end.
Proof.
  intros Hok Hm Hp Hgs Hgt Hgp.
  apply (GetElement_points _ _ _ _ _ Hp) in Hgs, Hgt, Hgp.
  rewrite (ContinuousTrackProperties_run _ _ _ _ _ _ Hok Hm Hp).
  unfold properties_of.
  destruct (first_child "sprocket" t) as [es|];
    [|rewrite (LoadSprocket_null _ _ _ _ Hgs); reflexivity].
  rewrite (LoadSprocket_run _ _ _ _ _ _ Hm Hgs).
  destruct (sprocket_of ext js m es) as [s|f]; [|reflexivity]. simpl.
  destruct (first_child "trajectory" t) as [et|];
    [|rewrite (LoadTrajectory_null _ _ _ _ Hgt); reflexivity].
  rewrite (LoadTrajectory_run _ _ _ _ _ _ Hm Hgt).
  destruct (trajectory_of ext js m et) as [tr|f]; [|reflexivity]. simpl.
  destruct (first_child "pattern" t) as [ep|];
    [|rewrite (LoadPattern_null _ _ _ Hgp); reflexivity].
  rewrite (LoadPattern_run _ _ _ _ Hgp).
  pose proof (pattern_of_base (length (heap w))
                (length (heap w) + check_roots w) ep) as Hbase.
  destruct (pattern_of (length (heap w)) ep) as [pat|f];
    destruct (pattern_of (length (heap w) + check_roots w) ep) as [pat'|f'];
    try contradiction.
  - exists pat'. split; [reflexivity | exact Hbase].
  - rewrite Hbase. reflexivity.
Qed.

Lemma first_failure_stops_construction_witness :
  value_of (ContinuousTrackProperties Sample.gazebo (Some 0) Sample.the_plugin
              (Sample.world_of (Sample.plugin_with "tow_ball" 0)))
  = Abort (AssertionFailed msg_sprocket_kind).
Proof.
  refine (first_failure_stops_construction Sample.gazebo
            (Sample.world_of (Sample.plugin_with "tow_ball" 0)) 0 Sample.vehicle
            Sample.the_plugin (Sample.plugin_with "tow_ball" 0)
            (Some (0, [0])) (Some (0, [1])) (Some (0, [2])) _ _ _ _ _ _);
    try reflexivity.
  intros p H. discriminate H.
Defined.

(** ** The end position of a segment *)

Lemma nan_not_positive (d : float) :
  PrimFloat.is_nan d = true -> PrimFloat.ltb 0 d = false.
Proof.
  intros H. rewrite ltb_spec. unfold Prim2SF at 2. rewrite H. reflexivity.
Qed.

(** X4.  A round of [LoadTrajectory] on a segment with a hinge or slider
    joint accepts the [end_position] exactly when [0. < end_position]
    holds in binary64: then the segment is appended with that value;
    otherwise, and so for a NaN, the assertion "must be positive real
    number" fails. *)
Theorem end_position_must_be_positive ext w m js p c tr name i j d :
  models w !! m = Some js ->
  element_at (heap w) p = Some c ->
  child_value "joint" c = Some (VString name) ->
  find_joint name js 0 = Some i ->
  js !! i = Some j ->
  Z.land (joint_type j) (HINGE_JOINT ext) <> 0%Z
  \/ Z.land (joint_type j) (SLIDER_JOINT ext) <> 0%Z ->
  child_value "end_position" c = Some (VDouble d) ->
  segment_round ext (Some m) p tr w
  = (if PrimFloat.ltb 0 d
     then Done ({| segments :=
                     segments tr
                     ++ [{| segment_joint := Some (m, i); end_position := d |}] |},
                w)
     else Abort (AssertionFailed msg_end_position))
  /\ (PrimFloat.is_nan d = true ->
      segment_round ext (Some m) p tr w
      = Abort (AssertionFailed msg_end_position)).
Proof.
  intros Hm Hp Hj Hf Hi Hk Hd.
  assert (Hrun : segment_round ext (Some m) p tr w
                 = (if PrimFloat.ltb 0 d
                    then Done ({| segments :=
                                    segments tr
                                    ++ [{| segment_joint := Some (m, i);
                                           end_position := d |}] |}, w)
                    else Abort (AssertionFailed msg_end_position))).
  { rewrite (segment_round_run _ _ _ _ _ _ tr Hm Hp).
    unfold segment_of. rewrite Hj, Hf, Hi, Hd.
    replace (truthy (Z.land (joint_type j) (HINGE_JOINT ext))
             || truthy (Z.land (joint_type j) (SLIDER_JOINT ext))) with true.
    - destruct (PrimFloat.ltb 0 d); reflexivity.
    - symmetry. destruct Hk as [H|H]; apply truthy_spec in H; rewrite H;
        [reflexivity | apply orb_true_r]. }
  split; [exact Hrun|].
  intros Hnan. rewrite Hrun, (nan_not_positive _ Hnan). reflexivity.
Qed.

Lemma end_position_must_be_positive_witness :
  segment_round Sample.gazebo (Some 0) (Some (0, [0]))
    {| segments := [] |} (Sample.world_of nan_trajectory)
  = Abort (AssertionFailed msg_end_position).
Proof.
  refine (proj2 (end_position_must_be_positive Sample.gazebo
                   (Sample.world_of nan_trajectory) 0 Sample.vehicle
                   (Some (0, [0])) (Sample.segment_elem "idler_slider" nan)
                   {| segments := [] |} "idler_slider" 1
                   {| joint_name := "idler_slider"; joint_type := 0x440 |} nan
                   _ _ _ _ _ _ _) _);
    try reflexivity.
  right. vm_compute. discriminate.
Defined.

(** ** What the pattern loader allocates *)

Lemma layout_shape base es :
  Forall2 (fun pe e =>
             length (collision_sdfs pe) = length (children_named "collision" e)
             /\ length (visual_sdfs pe) = length (children_named "visual" e))
    (layout base es) es.
Proof.
  revert base. induction es as [|e es IH]; intros base; simpl; constructor.
  - simpl. rewrite !length_fresh_ptrs. split; reflexivity.
  - apply IH.
Qed.

(** X5.  For every positive [elements_per_round], [LoadPattern] returns,
    whatever the other children of the pattern element are: the pattern
    keeps the count as it was read and has one element per child called
    [element], each with one sdf per [collision] and per [visual] child;
    the heap is the old heap followed by exactly these clones, for each
    element its collisions, then its visuals, and nothing else is
    allocated.  Without any child called [element] the pattern is empty
    and the world is as before. *)
Theorem LoadPattern_allocates_the_clones _model _sdf w t n :
  element_at (heap w) _sdf = Some t ->
  child_value "elements_per_round" t = Some (VUInt n) ->
  (0 < n)%N ->
  (exists pat,
     LoadPattern _model _sdf w
     = Done (pat, set_heap (heap w ++ clones_of (children_named "element" t)) w)
     /\ elements_per_round pat = n
     /\ Forall2 (fun pe e =>
                   length (collision_sdfs pe)
                   = length (children_named "collision" e)
                   /\ length (visual_sdfs pe)
                      = length (children_named "visual" e))
          (elements pat) (children_named "element" t))
  /\ (children_named "element" t = [] ->
      LoadPattern _model _sdf w
      = Done ({| elements_per_round := n; elements := [] |}, w)).
Proof.
  intros Hp Hn Hpos. rewrite (LoadPattern_run _ _ _ _ Hp).
  unfold pattern_of. rewrite Hn.
  apply N.ltb_lt in Hpos. rewrite Hpos. split.
  - eexists. split; [reflexivity|]. split; [reflexivity|]. apply layout_shape.
  - intros ->. unfold clones_of. simpl. rewrite app_nil_r, set_heap_same.
    reflexivity.
Qed.

Lemma LoadPattern_allocates_the_clones_witness :
  LoadPattern None (Some (0, [2]))
    (Sample.world_of (Sample.plugin_with "sprocket_axle" 7))
  = Done ({| elements_per_round := 7; elements := [] |},
          Sample.world_of (Sample.plugin_with "sprocket_axle" 7)).
Proof.
  refine (proj2 (LoadPattern_allocates_the_clones None (Some (0, [2]))
                   (Sample.world_of (Sample.plugin_with "sprocket_axle" 7))
                   (Elem "pattern" VEmpty
                      [Sample.leaf "elements_per_round" (VUInt 7)]) 7 _ _ _) _);
    reflexivity.
Defined.

Lemma fresh_ptrs_app base n k :
  fresh_ptrs base (n + k) = fresh_ptrs base n ++ fresh_ptrs (base + n) k.
Proof.
  revert base. induction n as [|n IH]; intros base; simpl.
  - replace (base + 0) with base by lia. reflexivity.
  - rewrite IH. replace (S base + n) with (base + S n) by lia. reflexivity.
Qed.

Lemma all_sdfs_layout epr base es :
  all_sdfs {| elements_per_round := epr; elements := layout base es |}
  = fresh_ptrs base (length (clones_of es)).
Proof.
  unfold all_sdfs, clones_of. simpl. revert base.
  induction es as [|e es IH]; intros base; simpl; [reflexivity|].
  rewrite IH, !length_app, <- !app_assoc, <- !fresh_ptrs_app.
  f_equal. apply Nat.add_assoc.
Qed.

Lemma fresh_ptrs_bounds base n k rp :
  Some (k, rp) ∈ fresh_ptrs base n -> rp = [] /\ base <= k < base + n.
Proof.
  revert base. induction n as [|n IH]; intros base; simpl.
  - intros H. inversion H.
  - intros H. apply elem_of_cons in H as [H|H].
    + injection H as -> ->. split; [reflexivity | lia].
    + apply IH in H as [-> H]. split; [reflexivity | lia].
Qed.

Lemma fresh_ptrs_NoDup base n : NoDup (fresh_ptrs base n).
Proof.
  revert base. induction n as [|n IH]; intros base; simpl; constructor.
  - intros H. apply fresh_ptrs_bounds in H as [_ H]. lia.
  - apply IH.
Qed.

(** X6.  No two sdfs of a loaded pattern are the same pointer, over all
    elements and over collisions and visuals alike; none is null, none has
    a parent, and none points to a tree that was there before the load. *)
Theorem pattern_sdfs_are_distinct _model _sdf w t pat w' :
  element_at (heap w) _sdf = Some t ->
  LoadPattern _model _sdf w = Done (pat, w') ->
  NoDup (all_sdfs pat)
  /\ (forall q, q ∈ all_sdfs pat ->
                exists k, q = Some (k, []) /\ length (heap w) <= k < length (heap w')).
Proof.
  intros Hp. rewrite (LoadPattern_run _ _ _ _ Hp). unfold pattern_of.
  destruct (child_value "elements_per_round" t) as [[|s|d|n]|]; try discriminate.
  destruct (N.ltb 0 n); [|discriminate].
  intros [= <- <-]. rewrite all_sdfs_layout. split; [apply fresh_ptrs_NoDup|].
  intros [[k rp]|] Hq.
  - apply fresh_ptrs_bounds in Hq as [-> Hk]. exists k.
    split; [reflexivity|]. simpl heap. rewrite length_app. exact Hk.
  - exfalso. revert Hq. generalize (length (heap w)).
    induction (length (clones_of (children_named "element" t))) as [|m IH];
      intros base H; simpl in H.
    + inversion H.
    + apply elem_of_cons in H as [H|H]; [discriminate H | eapply IH, H].
Qed.

Lemma pattern_sdfs_are_distinct_witness :
  NoDup (all_sdfs two_elements)
  /\ (forall q, q ∈ all_sdfs two_elements ->
                exists k, q = Some (k, [])
                          /\ length (heap (Sample.world_of (Sample.plugin 0.2)))
                             <= k
                             < length [Sample.plugin 0.2; Sample.box; Sample.grouser;
                                       Sample.box; Sample.skin]).
Proof.
  refine (pattern_sdfs_are_distinct None (Some (0, [2]))
            (Sample.world_of (Sample.plugin 0.2)) Sample.pattern_elem two_elements
            (set_heap [Sample.plugin 0.2; Sample.box; Sample.grouser;
                       Sample.box; Sample.skin]
               (Sample.world_of (Sample.plugin 0.2))) _ _);
    reflexivity.
Defined.

(** ** What the loaders look at *)

Lemma value_of_lift {A} w (o : Outcome A) : value_of (lift w o) = o.
Proof. destruct o; reflexivity. Qed.

(** X7.  [LoadTrajectory] looks at the children called [segment] only
    and needs none: two trajectory elements with the same segments, in
    whatever worlds with the same joints, load to the same trajectory or
    fail in the same way, whatever their other children are; and a
    trajectory element without any segment loads to the empty trajectory,
    without a failure. *)
Theorem LoadTrajectory_reads_segments_only ext m js w1 w2 p1 p2 t1 t2 :
  models w1 !! m = Some js ->
  models w2 !! m = Some js ->
  element_at (heap w1) p1 = Some t1 ->
  element_at (heap w2) p2 = Some t2 ->
  (children_named "segment" t1 = children_named "segment" t2 ->
   value_of (LoadTrajectory ext (Some m) p1 w1)
   = value_of (LoadTrajectory ext (Some m) p2 w2))
  /\ (children_named "segment" t1 = [] ->
      LoadTrajectory ext (Some m) p1 w1 = Done ({| segments := [] |}, w1)).
Proof.
  intros Hm1 Hm2 Hp1 Hp2.
  rewrite (LoadTrajectory_run _ _ _ _ _ _ Hm1 Hp1).
  rewrite (LoadTrajectory_run _ _ _ _ _ _ Hm2 Hp2).
  unfold trajectory_of. split.
  - intros ->. rewrite !value_of_lift. reflexivity.
  - intros ->. reflexivity.
Qed.

Lemma LoadTrajectory_reads_segments_only_witness :
  value_of (LoadTrajectory Sample.gazebo (Some 0) (Some (0, [1]))
              (Sample.world_of (Sample.plugin 0.2)))
  = value_of (LoadTrajectory Sample.gazebo (Some 0) (Some (0, []))
                (Sample.world_of noisy_trajectory)).
Proof.
  refine (proj1 (LoadTrajectory_reads_segments_only Sample.gazebo 0 Sample.vehicle
                   (Sample.world_of (Sample.plugin 0.2))
                   (Sample.world_of noisy_trajectory)
                   (Some (0, [1])) (Some (0, []))
                   Sample.trajectory_elem noisy_trajectory _ _ _ _) _);
    reflexivity.
Defined.

Lemma find_child_app tag l more k i :
  find_child tag l k = Some i -> find_child tag (l ++ more) k = Some i.
Proof.
  revert k. induction l as [|c l IH]; intros k; simpl; [discriminate|].
  destruct (String.eqb (GetName c) tag); [trivial | apply IH].
Qed.

Lemma child_value_app tag e e' more v :
  children e' = children e ++ more ->
  child_value tag e = Some v ->
  child_value tag e' = Some v.
Proof.
  unfold child_value. intros ->.
  destruct (find_child tag (children e) 0) as [i|] eqn:Hf; [|discriminate].
  rewrite (find_child_app _ _ more _ _ Hf).
  destruct (children e !! i) as [c|] eqn:Hc; [|discriminate].
  rewrite (lookup_app_l_Some _ _ _ _ Hc). trivial.
Qed.

(** X8.  [LoadSprocket] reads the first child called [joint] and the
    first child called [pitch_diameter]: children that follow them, a
    second [joint] or [pitch_diameter] included, do not change what it
    returns or how it fails. *)
Theorem LoadSprocket_reads_first_children ext w m js p p' e e' more vj vp :
  models w !! m = Some js ->
  element_at (heap w) p = Some e ->
  element_at (heap w) p' = Some e' ->
  children e' = children e ++ more ->
  child_value "joint" e = Some vj ->
  child_value "pitch_diameter" e = Some vp ->
  LoadSprocket ext (Some m) p' w = LoadSprocket ext (Some m) p w.
Proof.
  intros Hm Hp Hp' Hc Hj Hd.
  rewrite (LoadSprocket_run _ _ _ _ _ _ Hm Hp).
  rewrite (LoadSprocket_run _ _ _ _ _ _ Hm Hp').
  unfold sprocket_of.
  rewrite (child_value_app _ _ _ _ _ Hc Hj), (child_value_app _ _ _ _ _ Hc Hd).
  rewrite Hj, Hd. reflexivity.
Qed.

Lemma LoadSprocket_reads_first_children_witness :
  LoadSprocket Sample.gazebo (Some 0) (Some (1, []))
    (set_heap [Sample.plugin 0.2; sprocket_twice]
       (Sample.world_of (Sample.plugin 0.2)))
  = LoadSprocket Sample.gazebo (Some 0) (Some (0, [0]))
      (set_heap [Sample.plugin 0.2; sprocket_twice]
         (Sample.world_of (Sample.plugin 0.2))).
Proof.
  refine (LoadSprocket_reads_first_children Sample.gazebo
            (set_heap [Sample.plugin 0.2; sprocket_twice]
               (Sample.world_of (Sample.plugin 0.2)))
            0 Sample.vehicle (Some (0, [0])) (Some (1, []))
            (Sample.sprocket_elem "sprocket_axle" 0.2) sprocket_twice
            [Sample.leaf "joint" (VString "tow_ball");
             Sample.leaf "pitch_diameter" (VDouble 9)]
            (VString "sprocket_axle") (VDouble 0.2) _ _ _ _ _ _);
    reflexivity.
Defined.

(** ** Constructing twice *)

Lemma fresh_ptrs_non_null base n : None ∉ fresh_ptrs base n.
Proof.
  revert base. induction n as [|n IH]; intros base H; simpl in H.
  - inversion H.
  - apply elem_of_cons in H as [H|H]; [discriminate H | eapply IH, H].
Qed.

(** The constructor as a function of the plugin element, with the world
    it leaves. *)
Lemma ContinuousTrackProperties_full ext w m js _sdf t :
  seed_kept ext w ->
  models w !! m = Some js ->
  element_at (heap w) _sdf = Some t ->
  exists pre p,
    length pre = check_roots w
    /\ element_at (heap w ++ pre) p = Some (seed_content ext)
    /\ (forall q, fmt_seed_static w = Some q -> p = q)
    /\ ContinuousTrackProperties ext (Some m) _sdf w
       = match properties_of ext js m (length (heap w) + check_roots w) t with
         | Done props =>
             Done (props,
                   {| models := models w;
                      heap := heap w ++ pre ++ plugin_clones t;
                      fmt_seed_static := Some p |})
         | Abort f => Abort f
         end.
Proof.
  intros Hk Hm Hp.
  destruct (AssertPluginSDF_world ext _ _ _ Hk Hp)
    as (w1 & p & Hrun & Hm1 & Hs & Hsame & Hseed & pre & Hlen & Hheap).
  exists (pre ++ [(validation ext (seed_content ext) t).2]), p.
  split; [rewrite length_app; exact Hlen|].
  split; [rewrite <- Hheap; exact Hseed|].
  split; [exact Hsame|].
  rewrite ContinuousTrackProperties_unfold, (bind_done _ _ _ _ _ Hrun).
  assert (Hp1 : element_at (heap w1) _sdf = Some t)
    by (rewrite Hheap; apply element_at_app, Hp).
  rewrite <- Hm1 in Hm. rewrite (run_loaders_run _ _ _ _ _ _ Hm Hp1).
  replace (length (heap w1)) with (length (heap w) + check_roots w)
    by (rewrite Hheap, !length_app, <- Hlen; simpl; lia).
  destruct (properties_of ext js m (length (heap w) + check_roots w) t);
    [|reflexivity].
  destruct w1 as [ms hp st]. simpl in *. subst. unfold set_heap. simpl.
  rewrite <- !app_assoc. reflexivity.
Qed.

Lemma properties_of_Done ext js m base t props :
  properties_of ext js m base t = Done props ->
  exists n es,
    plugin_clones t = clones_of es
    /\ pattern props = {| elements_per_round := n; elements := layout base es |}
    /\ forall base',
         properties_of ext js m base' t
         = Done {| sprocket := sprocket props;
                   trajectory := trajectory props;
                   pattern := {| elements_per_round := n;
                                 elements := layout base' es |} |}.
Proof.
  unfold properties_of, plugin_clones.
  destruct (first_child "sprocket" t) as [es|]; [|discriminate].
  destruct (sprocket_of ext js m es) as [s|]; [|discriminate].
  destruct (first_child "trajectory" t) as [et|]; [|discriminate].
  destruct (trajectory_of ext js m et) as [tr|]; [|discriminate].
  destruct (first_child "pattern" t) as [ep|]; [|discriminate].
  unfold pattern_of.
  destruct (child_value "elements_per_round" ep) as [[|x|d|n]|]; try discriminate.
  destruct (N.ltb 0 n); [|discriminate].
  intros [= <-]. exists n, (children_named "element" ep).
  split; [reflexivity|]. split; reflexivity.
Qed.

(** X9.  A second construction from the same plugin element, in the
    world the first one left, returns as the first did: the same sprocket
    and trajectory, and a pattern of the same count and shape whose sdfs
    are new clones, none of them an sdf of the first pattern; the format
    seed is reused, not initialised again. *)
Theorem second_construction_is_independent ext w m js _sdf t props w' :
  seed_kept ext w ->
  models w !! m = Some js ->
  element_at (heap w) _sdf = Some t ->
  ContinuousTrackProperties ext (Some m) _sdf w = Done (props, w') ->
  exists props2 w2,
    ContinuousTrackProperties ext (Some m) _sdf w' = Done (props2, w2)
    /\ sprocket props2 = sprocket props
    /\ trajectory props2 = trajectory props
    /\ elements_per_round (pattern props2) = elements_per_round (pattern props)
    /\ Forall2 same_shape (elements (pattern props)) (elements (pattern props2))
    /\ (forall q, q ∈ all_sdfs (pattern props) -> q ∉ all_sdfs (pattern props2))
    /\ fmt_seed_static w2 = fmt_seed_static w'.
Proof.
  intros Hk Hm Hp.
  destruct (ContinuousTrackProperties_full ext _ _ _ _ _ Hk Hm Hp)
    as (pre & p & Hlen & Hseed & _ & ->).
  destruct (properties_of ext js m (length (heap w) + check_roots w) t)
    as [props1|] eqn:Hprops; [|discriminate].
  intros [= <- <-].
  destruct (properties_of_Done _ _ _ _ _ _ Hprops) as (n & es & Hcl & Hpat & Hall).
  set (w' := {| models := models w; heap := heap w ++ pre ++ plugin_clones t;
                fmt_seed_static := Some p |}).
  assert (Hk' : seed_kept ext w').
  { unfold seed_kept. simpl. rewrite app_assoc. apply element_at_app, Hseed. }
  assert (Hp' : element_at (heap w') _sdf = Some t)
    by (simpl; apply element_at_app, Hp).
  destruct (ContinuousTrackProperties_full ext w' m js _ _ Hk' Hm Hp')
    as (pre' & p' & _ & _ & Hsame & Hrun).
  rewrite Hall in Hrun. eexists _, _. split; [exact Hrun|].
  simpl. rewrite Hpat. simpl.
  split; [reflexivity|]. split; [reflexivity|]. split; [reflexivity|].
  split; [apply layout_same_shape|]. split.
  - intros q. rewrite !all_sdfs_layout. intros H1 H2.
    destruct q as [[k rp]|].
    + apply fresh_ptrs_bounds in H1 as [_ H1], H2 as [_ H2].
      rewrite !length_app, Hlen, Hcl in H2. simpl in H2. lia.
    + eapply fresh_ptrs_non_null, H1.
  - rewrite (Hsame p); reflexivity.
Qed.

Lemma second_construction_is_independent_witness :
  exists props2 w2,
    ContinuousTrackProperties Sample.gazebo (Some 0) Sample.the_plugin loaded_world
    = Done (props2, w2)
    /\ sprocket props2 = sprocket loaded_properties
    /\ trajectory props2 = trajectory loaded_properties
    /\ elements_per_round (pattern props2)
       = elements_per_round (pattern loaded_properties)
    /\ Forall2 same_shape (elements (pattern loaded_properties))
         (elements (pattern props2))
    /\ (forall q, q ∈ all_sdfs (pattern loaded_properties) ->
                  q ∉ all_sdfs (pattern props2))
    /\ fmt_seed_static w2 = fmt_seed_static loaded_world.
Proof.
  refine (second_construction_is_independent Sample.gazebo
            (Sample.world_of (Sample.plugin 0.2)) 0 Sample.vehicle
            Sample.the_plugin (Sample.plugin 0.2) loaded_properties loaded_world
            _ _ _ _).
  - exact I.
  - reflexivity.
  - reflexivity.
  - vm_compute. reflexivity.
Defined.

(** ** The joint of the sprocket as the joint of a segment *)

(** X10.  The sprocket asks more of its joint than a segment does: when
    [LoadSprocket] returns a sprocket, a round of [LoadTrajectory] on a
    segment that names the same joint and has a positive [end_position]
    returns too, and appends a segment with the joint handle of the
    sprocket. *)
Theorem sprocket_joint_fits_a_segment ext w m js p e s w' pc c tr d :
  models w !! m = Some js ->
  element_at (heap w) p = Some e ->
  LoadSprocket ext (Some m) p w = Done (s, w') ->
  element_at (heap w) pc = Some c ->
  child_value "joint" c = child_value "joint" e ->
  child_value "end_position" c = Some (VDouble d) ->
  PrimFloat.ltb 0 d = true ->
  segment_round ext (Some m) pc tr w
  = Done ({| segments :=
               segments tr
               ++ [{| segment_joint := sprocket_joint s; end_position := d |}] |},
          w).
Proof.
  intros Hm Hp Hload Hc Hj Hd Hpos.
  rewrite (LoadSprocket_run _ _ _ _ _ _ Hm Hp) in Hload.
  rewrite (segment_round_run _ _ _ _ _ _ tr Hm Hc).
  unfold sprocket_of in Hload. unfold segment_of. rewrite Hj, Hd, Hpos.
  destruct (child_value "joint" e) as [[|name|x|n]|]; try discriminate.
  destruct (find_joint name js 0) as [i|]; [|discriminate].
  destruct (js !! i) as [j|]; [|discriminate].
  destruct (truthy (Z.land (joint_type j) (HINGE_JOINT ext))); [|discriminate].
  destruct (child_value "pitch_diameter" e) as [[|x|pd|n]|]; try discriminate.
  injection Hload as <- _. reflexivity.
Qed.

Lemma sprocket_joint_fits_a_segment_witness :
  segment_round Sample.gazebo (Some 0) (Some (0, [0; 1])) {| segments := [] |}
    (Sample.world_of (Sample.plugin 0.2))
  = Done ({| segments := [{| segment_joint := Some (0, 0);
                             end_position := 0.001 |}] |},
          Sample.world_of (Sample.plugin 0.2)).
Proof.
  refine (sprocket_joint_fits_a_segment Sample.gazebo
            (Sample.world_of (Sample.plugin 0.2)) 0 Sample.vehicle
            (Some (0, [0])) (Sample.sprocket_elem "sprocket_axle" 0.2)
            {| sprocket_joint := Some (0, 0); pitch_diameter := 0.2 |}
            (Sample.world_of (Sample.plugin 0.2))
            (Some (0, [0; 1])) (Sample.segment_elem "sprocket_axle" 0.001)
            {| segments := [] |} 0.001 _ _ _ _ _ _ _);
    reflexivity.
Defined.
